(** * Prompt Vault: a shallow embedding of [script.js]

    The development follows the layout of the program: JavaScript strings
    and numbers, the similarity engine ([getEditDistance],
    [calculateSimilarity]), the duplicate detector, the record store with
    its history stacks, the search cache, the category list and the share
    link.  Every definition is a transcription of the function of the same
    name; what the script reads back from the page (the prompt cards, the
    category items, the options of the category select) is part of the
    state, and DOM glue that carries no data (toasts, modals, CSS classes)
    is left out.  The search filter of the second script of the repository,
    carried by [README.md], is embedded next to the search handler of
    [script.js].  The text metrics, the search suggestions, the handlers
    that add categories, the batch helper, the reading of a share link and
    the statistics follow the sample data. *)

From Stdlib Require Import String Ascii QArith Qround DecimalString Lqa.
From stdpp Require Import gmap list.

Open Scope nat_scope.

(** ** JavaScript strings

    A string is its sequence of UTF-16 code units. *)

Abbreviation jsstring := (list N).

Definition str (s : string) : jsstring :=
  N_of_ascii <$> list_ascii_of_string s.
Arguments str : simpl never.

(** [s.charAt(k)]: the one-unit string at index [k], or the empty string
    when [k] is out of range. *)
Definition charAt (s : jsstring) (k : nat) : jsstring :=
  match s !! k with
  | Some c => [c]
  | None => []
  end.

(** [s.startsWith(p)] *)
Fixpoint startsWith (s p : jsstring) {struct p} : bool :=
  match p, s with
  | [], _ => true
  | c :: p', d :: s' => if decide (c = d) then startsWith s' p' else false
  | _ :: _, [] => false
  end.

(** [s.includes(t)] *)
Fixpoint includes (s t : jsstring) : bool :=
  startsWith s t ||
  match s with
  | [] => false
  | _ :: s' => includes s' t
  end.

(** [s.slice(k)] for [0 <= k] *)
Definition slice (s : jsstring) (k : nat) : jsstring := drop k s.

(** [s.toLowerCase()], on the ASCII letters; other code units are kept. *)
Definition lowerUnit (c : N) : N :=
  if ((65 <=? c) && (c <=? 90))%N then (c + 32)%N else c.

Definition toLowerCase (s : jsstring) : jsstring := lowerUnit <$> s.

(** White space and line terminators of ECMAScript, as removed by
    [trim]. *)
Definition isWhiteSpace (c : N) : bool :=
  bool_decide (c ∈ [9; 10; 11; 12; 13; 32; 160; 5760; 8232; 8233; 8239;
                     8287; 12288; 65279]%N)
  || ((8192 <=? c) && (c <=? 8202))%N.

Fixpoint trimStart (s : jsstring) : jsstring :=
  match s with
  | c :: s' => if isWhiteSpace c then trimStart s' else s
  | [] => []
  end.

Definition trim (s : jsstring) : jsstring :=
  reverse (trimStart (reverse (trimStart s))).

(** [s.split(sep)] for a one-unit separator. *)
Fixpoint split (sep : N) (s : jsstring) : list jsstring :=
  match s with
  | [] => [[]]
  | c :: s' =>
      if decide (c = sep) then [] :: split sep s'
      else match split sep s' with
           | w :: ws => (c :: w) :: ws
           | [] => [[c]]
           end
  end.

(** [a.join(sep)] *)
Fixpoint join (sep : jsstring) (a : list jsstring) : jsstring :=
  match a with
  | [] => []
  | [w] => w
  | w :: ws => w ++ sep ++ join sep ws
  end.

(** ** JavaScript numbers and arrays of numbers

    [getEditDistance] only stores array indices and small sums, so a number
    is a natural; [None] stands for [undefined] and [NaN], which the
    arithmetic below propagates like JavaScript does. *)

Abbreviation jsnum := (option nat).

Definition num_min (a b : jsnum) : jsnum :=
  match a, b with
  | Some x, Some y => Some (x `min` y)
  | _, _ => None
  end.

Definition num_succ (a : jsnum) : jsnum := S <$> a.

(** [a[j]]: a hole or an index past the end reads [undefined]. *)
Definition arr_get (j : nat) (a : list jsnum) : jsnum :=
  default None (a !! j).

(** [a[j] = v]: writing past the end extends the array, leaving holes. *)
Definition arr_set (j : nat) (v : jsnum) (a : list jsnum) : list jsnum :=
  if decide (j < length a) then <[j:=v]> a
  else a ++ replicate (j - length a) None ++ [v].

(** ** Similarity engine *)

(** Body of the inner loop of [getEditDistance], for row [i] and column
    [j]; the state is [(costs, lastValue)]. *)
Definition editStep (s1 s2 : jsstring) (i : nat)
    (st : list jsnum * jsnum) (j : nat) : list jsnum * jsnum :=
  let '(costs, lastValue) := st in
  if decide (i = 0) then (arr_set j (Some j) costs, lastValue)
  else if decide (0 < j) then
    let newValue := arr_get (j - 1) costs in
    let newValue :=
      if decide (charAt s1 (i - 1) ≠ charAt s2 (j - 1))
      then num_succ (num_min (num_min newValue lastValue) (arr_get j costs))
      else newValue in
    (arr_set (j - 1) lastValue costs, newValue)
  else (costs, lastValue).

(** Body of the outer loop: one row. *)
Definition editRow (s1 s2 : jsstring) (costs : list jsnum) (i : nat)
    : list jsnum :=
  let '(costs', lastValue) :=
    foldl (editStep s1 s2 i) (costs, Some i) (seq 0 (S (length s2))) in
  if decide (0 < i) then arr_set (length s2) lastValue costs' else costs'.

Definition getEditDistance (s1 s2 : jsstring) : jsnum :=
  arr_get (length s2) (foldl (editRow s1 s2) [] (seq 0 (S (length s1)))).

(** The quotient of two integers is kept exact; [None] is [NaN].  On the
    quotients [calculateSimilarity] forms (numerator and denominator below
    2^30, the longest string an engine allocates) the comparison with
    [0.7] and the rounding of the hundredfold agree with their
    double-precision counterparts. *)
Definition calculateSimilarity (str1 str2 : jsstring) : option Q :=
  let longer := if decide (length str2 < length str1) then str1 else str2 in
  let shorter := if decide (length str2 < length str1) then str2 else str1 in
  if decide (length longer = 0) then Some 1%Q
  else
    editDistance ← getEditDistance longer shorter;
    Some ((Z.of_nat (length longer) - Z.of_nat editDistance)
          # Pos.of_nat (length longer))%Q.

(** *** The rows of the distance table, as a function *)

Fixpoint rowTail (c : jsstring) (diag last : nat) (old : list nat)
    (s2 : jsstring) : list nat :=
  match old, s2 with
  | o :: old', b :: s2' =>
      let v := if decide (c ≠ [b]) then S ((diag `min` last) `min` o)
               else diag in
      v :: rowTail c o v old' s2'
  | _, _ => []
  end.

Definition nextRow (c : jsstring) (i : nat) (old : list nat)
    (s2 : jsstring) : list nat :=
  match old with
  | d :: old' => i :: rowTail c d i old' s2
  | [] => []
  end.

Fixpoint tableRow (s1 s2 : jsstring) (i : nat) : list nat :=
  match i with
  | 0 => seq 0 (S (length s2))
  | S i' => nextRow (charAt s1 i') i (tableRow s1 s2 i') s2
  end.

(** ** Records *)

(** A prompt as [savePrompt] builds it.  [rating] is absent from the sample
    data and from imported prompts, hence optional. *)
Record Prompt := mkPrompt {
  p_id : jsstring;
  p_title : jsstring;
  p_category : jsstring;
  p_tags : list jsstring;
  p_text : jsstring;
  p_notes : jsstring;
  p_rating : option Z;
  p_resultImages : list jsstring;
  p_inputImage : option jsstring;
  p_createdAt : jsstring;
  p_updatedAt : jsstring
}.

Definition set_category (c : jsstring) (p : Prompt) : Prompt :=
  mkPrompt (p_id p) (p_title p) c (p_tags p) (p_text p) (p_notes p)
    (p_rating p) (p_resultImages p) (p_inputImage p) (p_createdAt p)
    (p_updatedAt p).

(** ** Duplicate detector *)

Record Duplicate := mkDuplicate {
  prompt1 : Prompt;
  prompt2 : Prompt;
  similarity : Z
}.

(** [Math.round(x)]: the nearest integer, halves upwards. *)
Definition Math_round (x : Q) : Z := Qfloor (x + (1 # 2)).

(** [similarity > 0.7]; a comparison with [NaN] is false. *)
Definition exceedsThreshold (sim : option Q) : bool :=
  match sim with
  | Some q => negb (Qle_bool q (7 # 10))
  | None => false
  end.

Definition duplicateStep (prompts : list Prompt) (i : nat)
    (duplicates : list Duplicate) (j : nat) : list Duplicate :=
  match prompts !! i, prompts !! j with
  | Some pi, Some pj =>
      let sim := calculateSimilarity (p_text pi) (p_text pj) in
      if exceedsThreshold sim
      then duplicates ++
           [mkDuplicate pi pj (Math_round (default 0%Q sim * 100))]
      else duplicates
  | _, _ => duplicates
  end.

(** What one pair of indices contributes. *)
Definition duplicateOf (prompts : list Prompt) (i j : nat) : list Duplicate :=
  duplicateStep prompts i [] j.

Definition findDuplicatePrompts (prompts : list Prompt) : list Duplicate :=
  foldl (λ duplicates i,
           foldl (duplicateStep prompts i) duplicates
                 (seq (i + 1) (length prompts - (i + 1))))
        [] (seq 0 (length prompts)).

(** ** Exceptions *)

Inductive JsError := TypeError | InvalidCharacterError.

Inductive Outcome (A : Type) :=
  | Returns (a : A)
  | Throws (e : JsError).
Arguments Returns {A} a.
Arguments Throws {A} e.

Definition andThen {A B} (m : Outcome A) (k : A → Outcome B) : Outcome B :=
  match m with
  | Returns a => k a
  | Throws e => Throws e
  end.

(** ** The page: prompt cards and the category list *)

(** What the search handler reads from a [.prompt-card] element: the text
    of [.prompt-title-text], of [.prompt-text] when the card has such an
    element, and of every [.tag]. *)
Record Card := mkCard {
  card_id : jsstring;
  card_title_text : jsstring;
  card_prompt_text : option jsstring;
  card_tags : list jsstring
}.

(** The markup of [createPromptCard] has a [.prompt-title-text] holding the
    title and one [.tag] per tag, trimmed; it has no [.prompt-text]. *)
Definition createPromptCard (prompt : Prompt) : Card :=
  mkCard (p_id prompt) (p_title prompt) None (trim <$> p_tags prompt).

(** An [li] of [#categoryList] once [makeCategoryItem] has enhanced it:
    [dataset.category], [dataset.name], whether its delete button is hidden
    (the key was in [protect] at that time) and the items of its
    [.category-sublist]. *)
#[warnings="-register-all"] Inductive Li := mkLi {
  li_category : jsstring;
  li_name : jsstring;
  li_delHidden : bool;
  li_sublist : list Li
}.

Definition protect : list jsstring := [str "favorites"; str "other"].

(** [li] and the items nested in it, in document order. *)
Fixpoint li_all (li : Li) : list Li :=
  match li with
  | mkLi _ _ _ sub =>
      li :: (fix go (l : list Li) : list Li :=
               match l with
               | [] => []
               | x :: r => li_all x ++ go r
               end) sub
  end.

(** [document.querySelectorAll('#categoryList li')] *)
Definition allLis (categoryList : list Li) : list Li :=
  categoryList ≫= li_all.

(** An item is addressed by its path of child indices from
    [#categoryList]. *)
Fixpoint li_at (path : list nat) (forest : list Li) : option Li :=
  match path with
  | [] => None
  | [i] => forest !! i
  | i :: path' => forest !! i ≫= λ li, li_at path' (li_sublist li)
  end.

Definition set_sublist (sub : list Li) (li : Li) : Li :=
  mkLi (li_category li) (li_name li) (li_delHidden li) sub.

(** [liElement.remove()] *)
Fixpoint li_remove (path : list nat) (forest : list Li) : list Li :=
  match path with
  | [] => forest
  | [i] => delete i forest
  | i :: path' =>
      alter (λ li, set_sublist (li_remove path' (li_sublist li)) li) i forest
  end.

(** Changing every item by [f], nested ones included. *)
Fixpoint li_map (f : jsstring → jsstring → jsstring * jsstring) (li : Li)
    : Li :=
  match li with
  | mkLi k n h sub =>
      mkLi (f k n).1 (f k n).2 h
        ((fix go (l : list Li) : list Li :=
            match l with
            | [] => []
            | x :: r => li_map f x :: go r
            end) sub)
  end.

(** The first item in document order whose key is [key] gets key [k'] and
    name [n']; [found] says whether an earlier item was already taken. *)
Fixpoint li_setFirst (key k' n' : jsstring) (found : bool) (li : Li)
    : Li * bool :=
  match li with
  | mkLi k n h sub =>
      let here := negb found && bool_decide (k = key) in
      let '(sub', found') :=
        (fix go (l : list Li) (found : bool) : list Li * bool :=
           match l with
           | [] => ([], found)
           | x :: r =>
               let '(x', found1) := li_setFirst key k' n' found x in
               let '(r', found2) := go r found1 in
               (x' :: r', found2)
           end) sub (found || here) in
      (if here then mkLi k' n' h sub' else mkLi k n h sub', found')
  end.

Fixpoint forest_setFirst (key k' n' : jsstring) (found : bool)
    (forest : list Li) : list Li :=
  match forest with
  | [] => []
  | x :: r =>
      let '(x', found1) := li_setFirst key k' n' found x in
      x' :: forest_setFirst key k' n' found1 r
  end.

(** An [option] of the [#promptCategory] select: value and label. *)
Record SelectOption := mkOption {
  opt_value : jsstring;
  opt_text : jsstring
}.

(** [select.querySelector('option[value="v"]')], then an update of the
    option found. *)
Fixpoint option_setFirst (v : jsstring) (new : SelectOption)
    (options : list SelectOption) : list SelectOption :=
  match options with
  | [] => []
  | o :: r =>
      if decide (opt_value o = v) then new :: r
      else o :: option_setFirst v new r
  end.

(** ** Global state *)

(** The callback that [showConfirmModal] keeps in [pendingConfirmAction],
    by the place that created it. *)
Inductive ConfirmAction :=
  | ConfirmDeletePrompt (promptId : jsstring)
  | ConfirmDeleteCategory (keyToDelete : jsstring) (li : list nat)
  | ConfirmImport (importedPrompts : list Prompt).

(** The globals of [script.js] and the parts of the page it reads back.
    A snapshot on [undoStack] or [redoStack] is the collection it was
    serialised from: [JSON.parse(JSON.stringify(prompts))] rebuilds every
    field, all of them strings, numbers, [null] or arrays of strings.  The
    last element of a stack is its top. *)
Record State := mkState {
  prompts : list Prompt;
  favorites : list jsstring;
  currentCategory : jsstring;
  editingPromptId : option jsstring;
  pendingConfirmAction : option ConfirmAction;
  undoStack : list (list Prompt);
  redoStack : list (list Prompt);
  searchCache : gmap jsstring (list jsstring);
  promptCards : list Card;
  categoryList : list Li;
  categoryOptions : list SelectOption
}.

Definition set_prompts (v : list Prompt) (s : State) : State :=
  mkState v (favorites s) (currentCategory s) (editingPromptId s)
    (pendingConfirmAction s) (undoStack s) (redoStack s) (searchCache s)
    (promptCards s) (categoryList s) (categoryOptions s).

Definition set_favorites (v : list jsstring) (s : State) : State :=
  mkState (prompts s) v (currentCategory s) (editingPromptId s)
    (pendingConfirmAction s) (undoStack s) (redoStack s) (searchCache s)
    (promptCards s) (categoryList s) (categoryOptions s).


Definition set_editingPromptId (v : option jsstring) (s : State) : State :=
  mkState (prompts s) (favorites s) (currentCategory s) v
    (pendingConfirmAction s) (undoStack s) (redoStack s) (searchCache s)
    (promptCards s) (categoryList s) (categoryOptions s).

Definition set_pendingConfirmAction (v : option ConfirmAction) (s : State)
    : State :=
  mkState (prompts s) (favorites s) (currentCategory s) (editingPromptId s)
    v (undoStack s) (redoStack s) (searchCache s)
    (promptCards s) (categoryList s) (categoryOptions s).

Definition set_undoStack (v : list (list Prompt)) (s : State) : State :=
  mkState (prompts s) (favorites s) (currentCategory s) (editingPromptId s)
    (pendingConfirmAction s) v (redoStack s) (searchCache s)
    (promptCards s) (categoryList s) (categoryOptions s).

Definition set_redoStack (v : list (list Prompt)) (s : State) : State :=
  mkState (prompts s) (favorites s) (currentCategory s) (editingPromptId s)
    (pendingConfirmAction s) (undoStack s) v (searchCache s)
    (promptCards s) (categoryList s) (categoryOptions s).

Definition set_searchCache (v : gmap jsstring (list jsstring)) (s : State)
    : State :=
  mkState (prompts s) (favorites s) (currentCategory s) (editingPromptId s)
    (pendingConfirmAction s) (undoStack s) (redoStack s) v
    (promptCards s) (categoryList s) (categoryOptions s).

Definition set_promptCards (v : list Card) (s : State) : State :=
  mkState (prompts s) (favorites s) (currentCategory s) (editingPromptId s)
    (pendingConfirmAction s) (undoStack s) (redoStack s) (searchCache s)
    v (categoryList s) (categoryOptions s).

Definition set_categoryList (v : list Li) (s : State) : State :=
  mkState (prompts s) (favorites s) (currentCategory s) (editingPromptId s)
    (pendingConfirmAction s) (undoStack s) (redoStack s) (searchCache s)
    (promptCards s) v (categoryOptions s).

Definition set_categoryOptions (v : list SelectOption) (s : State) : State :=
  mkState (prompts s) (favorites s) (currentCategory s) (editingPromptId s)
    (pendingConfirmAction s) (undoStack s) (redoStack s) (searchCache s)
    (promptCards s) (categoryList s) v.

(** ** Record store *)

(** [prompts.findIndex(p => p.id === promptId)] *)
Definition findIndex (promptId : jsstring) (l : list Prompt) : option nat :=
  fst <$> list_find (λ p, p_id p = promptId) l.

(** [favorites.indexOf(promptId)] *)
Definition indexOf (promptId : jsstring) (l : list jsstring) : option nat :=
  fst <$> list_find (λ x, x = promptId) l.

Arguments findIndex : simpl never.
Arguments indexOf : simpl never.

(** [favorites.includes(promptId)] *)
Definition favorites_includes (promptId : jsstring) (l : list jsstring)
    : bool :=
  bool_decide (promptId ∈ l).

(** [loadPrompts]: empties [#promptGrid] and appends one card for each
    prompt of the current category. *)
Definition loadPrompts (s : State) : State :=
  let filteredPrompts :=
    if decide (currentCategory s = str "favorites")
    then filter (λ prompt, favorites_includes (p_id prompt) (favorites s)
                           = true) (prompts s)
    else if decide (currentCategory s ≠ str "all")
    then filter (λ prompt, p_category prompt = currentCategory s) (prompts s)
    else prompts s in
  set_promptCards (createPromptCard <$> filteredPrompts) s.


(** *** History *)

Definition saveState (s : State) : State :=
  let undoStack' := undoStack s ++ [prompts s] in
  let s := set_redoStack [] (set_undoStack undoStack' s) in
  if decide (20 < length (undoStack s))
  then set_undoStack (drop 1 (undoStack s)) s
  else s.

Definition undo (s : State) : State :=
  match last (undoStack s) with
  | Some snapshot =>
      let s := set_redoStack (redoStack s ++ [prompts s]) s in
      let s := set_prompts snapshot s in
      let s := set_undoStack (removelast (undoStack s)) s in
      loadPrompts s
  | None => s
  end.

Definition redo (s : State) : State :=
  match last (redoStack s) with
  | Some snapshot =>
      let s := set_undoStack (undoStack s ++ [prompts s]) s in
      let s := set_prompts snapshot s in
      let s := set_redoStack (removelast (redoStack s)) s in
      loadPrompts s
  | None => s
  end.

(** *** Creating, updating and deleting prompts *)

(** The values [savePrompt] reads from the form.  [promptRating] is the
    result of [parseInt] on the hidden field, [None] for [NaN]; the images
    are those of the upload boxes. *)
Record PromptForm := mkForm {
  promptTitle : jsstring;
  promptCategory : jsstring;
  promptTags : jsstring;
  promptText : jsstring;
  promptNotes : jsstring;
  promptRating : option Z;
  formResultImages : list jsstring;
  formInputImage : option jsstring
}.

(** [generateId()] and [new Date().toISOString()] are not functions of the
    state; their results come with the call. *)
Definition savePrompt (generateId now : jsstring) (form : PromptForm)
    (s : State) : State :=
  let title := trim (promptTitle form) in
  let category := promptCategory form in
  let tags :=
    filter (λ tag, tag ≠ []) (trim <$> split 44 (promptTags form)) in
  let text := trim (promptText form) in
  let notes := trim (promptNotes form) in
  let rating := default 0%Z (promptRating form) in
  if bool_decide (title = []) || bool_decide (category = [])
     || bool_decide (text = [])
  then s
  else
    let resultImages := formResultImages form in
    let inputImage := formInputImage form in
    let s := saveState s in
    let s :=
      match editingPromptId s with
      | Some (c :: e) =>
          match findIndex (c :: e) (prompts s) with
          | Some index =>
              set_prompts
                (alter (λ p, mkPrompt (p_id p) title category tags text notes
                               (Some rating) resultImages inputImage
                               (p_createdAt p) now)
                       index (prompts s)) s
          | None => s
          end
      | _ =>
          let newPrompt :=
            mkPrompt generateId title category tags text notes (Some rating)
              resultImages inputImage now now in
          set_prompts (newPrompt :: prompts s) s
      end in
    let s := set_searchCache ∅ s in
    loadPrompts s.

(** [addNewPrompt] and [editPrompt], as far as the store is concerned. *)
Definition addNewPrompt (s : State) : State := set_editingPromptId None s.

Definition editPrompt (promptId : jsstring) (s : State) : State :=
  match findIndex promptId (prompts s) with
  | Some _ => set_editingPromptId (Some promptId) s
  | None => s
  end.

(** [deletePrompt] asks for confirmation; the action is run by
    [confirmOk]. *)
Definition deletePrompt (promptId : jsstring) (s : State) : State :=
  match findIndex promptId (prompts s) with
  | Some _ => set_pendingConfirmAction (Some (ConfirmDeletePrompt promptId)) s
  | None => s
  end.

Definition deletePromptConfirmed (promptId : jsstring) (s : State) : State :=
  match findIndex promptId (prompts s) with
  | Some index =>
      let s := set_prompts (delete index (prompts s)) s in
      let s :=
        match indexOf promptId (favorites s) with
        | Some favIndex => set_favorites (delete favIndex (favorites s)) s
        | None => s
        end in
      let s := set_searchCache ∅ s in
      loadPrompts s
  | None => s
  end.

Definition toggleFavorite (promptId : jsstring) (s : State) : State :=
  let s :=
    match indexOf promptId (favorites s) with
    | None => set_favorites (favorites s ++ [promptId]) s
    | Some index => set_favorites (delete index (favorites s)) s
    end in
  if decide (currentCategory s = str "favorites") then loadPrompts s else s.

(** *** Import *)

(** The replacement of the collection by an imported file.  The fields of
    an imported prompt arrive as read from the file; the defaults
    ([prompt.title || 'Untitled'] and the like) replace an empty string.
    A prompt without an id at position [k] receives [generateId k].  The
    mapping keeps no [rating]. *)
Definition orDefault (v d : jsstring) : jsstring :=
  match v with
  | [] => d
  | _ => v
  end.

Definition importPrompt (generateId : nat → jsstring) (now : jsstring)
    (k : nat) (prompt : Prompt) : Prompt :=
  mkPrompt (orDefault (p_id prompt) (generateId k))
    (orDefault (p_title prompt) (str "Untitled"))
    (orDefault (p_category prompt) (str "other"))
    (p_tags prompt) (p_text prompt) (p_notes prompt) None
    (p_resultImages prompt)
    (match p_inputImage prompt with Some (c :: u) => Some (c :: u) | _ => None
     end)
    (orDefault (p_createdAt prompt) now) (orDefault (p_updatedAt prompt) now).

Definition handleFileImport (importedPrompts : list Prompt) (s : State)
    : State :=
  set_pendingConfirmAction (Some (ConfirmImport importedPrompts)) s.

Definition importConfirmed (generateId : nat → jsstring) (now : jsstring)
    (importedPrompts : list Prompt) (s : State) : State :=
  loadPrompts (set_prompts (imap (importPrompt generateId now)
                                 importedPrompts) s).

(** ** Search *)

(** The test the search handler applies to one card.  Reading
    [card.querySelector('.prompt-text').textContent] on a card without
    such an element is a [TypeError]. *)
Definition cardMatches (searchTerm : jsstring) (card : Card) : Outcome bool :=
  let title := toLowerCase (card_title_text card) in
  match card_prompt_text card with
  | None => Throws TypeError
  | Some textContent =>
      let text := toLowerCase textContent in
      let tags := toLowerCase <$> card_tags card in
      Returns (includes title searchTerm
               || includes text searchTerm
               || existsb (λ tag, includes tag searchTerm) tags)
  end.

(** [promptCards.forEach(...)] filling [results]. *)
Fixpoint searchCards (searchTerm : jsstring) (cards : list Card)
    (results : list jsstring) : Outcome (list jsstring) :=
  match cards with
  | [] => Returns results
  | card :: cards' =>
      andThen (cardMatches searchTerm card) (λ matches,
        searchCards searchTerm cards'
          (if matches then results ++ [card_id card] else results))
  end.

(** The lower-case names under which [searchCache], an object literal,
    reads a property of [Object.prototype] instead of [undefined]. *)
Definition inheritedProperty (key : jsstring) : bool :=
  bool_decide (key ∈ [str "constructor"; str "__proto__"]).

(** The [input] handler of [#searchInput], once its timer has fired, for
    the field value [value].  It returns the state and the ids handed to
    [applySearchResults], the cards left visible.  For an inherited
    property [applySearchResults] receives an object without [includes]:
    it fails at the first card and shows nothing on an empty page. *)
Definition searchInput (value : jsstring) (s : State)
    : Outcome (State * list jsstring) :=
  let searchTerm := trim (toLowerCase value) in
  match searchCache s !! searchTerm with
  | Some cached => Returns (s, cached)
  | None =>
      if inheritedProperty searchTerm
      then match promptCards s with
           | [] => Returns (s, [])
           | _ :: _ => Throws TypeError
           end
      else
        andThen (searchCards searchTerm (promptCards s) []) (λ results,
          Returns (set_searchCache (<[searchTerm := results]> (searchCache s))
                     s,
                   results))
  end.

(** [cacheManager.clearSearchCache] *)
Definition clearSearchCache (s : State) : State := set_searchCache ∅ s.

(** ** Category list *)

(** Whether [category] is [key] or below it. *)
Definition inCategory (key category : jsstring) : bool :=
  bool_decide (category = key)
  || (bool_decide (category ≠ []) && startsWith category (key ++ str "/")).

Definition renameKey (oldKey newKey : jsstring) (key name : jsstring)
    : jsstring * jsstring :=
  if bool_decide (key = []) then (key, name)
  else if bool_decide (key = oldKey) then (key, name)
  else if startsWith key (oldKey ++ str "/")
  then (newKey ++ str "/" ++ slice key (length oldKey + 1), name)
  else (key, name).

(** The option of a descendant item, updated while the items are
    visited. *)
Definition renameOption (oldKey newKey newDisplay : jsstring)
    (options : list SelectOption) (item : Li) : list SelectOption :=
  let key := li_category item in
  if bool_decide (key = []) then options
  else if bool_decide (key = oldKey) then options
  else if startsWith key (oldKey ++ str "/")
  then
    let rest := slice key (length oldKey + 1) in
    let newChildKey := newKey ++ str "/" ++ rest in
    let childDisplay := orDefault (li_name item) rest in
    option_setFirst key
      (mkOption newChildKey (newDisplay ++ str " / " ++ childDisplay)) options
  else options.

Definition renamePrompt (oldKey newKey : jsstring) (p : Prompt) : Prompt :=
  if bool_decide (p_category p = oldKey) then set_category newKey p
  else if bool_decide (p_category p ≠ [])
          && startsWith (p_category p) (oldKey ++ str "/")
  then set_category (newKey ++ slice (p_category p) (length oldKey)) p
  else p.

Definition updateDescendantKeys (oldKey newKey newDisplay : jsstring)
    (s : State) : State :=
  (* the target li *)
  let lis1 := forest_setFirst oldKey newKey newDisplay false (categoryList s) in
  (* descendant lis and their options *)
  let options1 :=
    foldl (renameOption oldKey newKey newDisplay) (categoryOptions s)
          (allLis lis1) in
  let lis2 := li_map (renameKey oldKey newKey) <$> lis1 in
  (* the option of the renamed category *)
  let options2 := option_setFirst oldKey (mkOption newKey newDisplay) options1 in
  (* the prompts *)
  let prompts' := renamePrompt oldKey newKey <$> prompts s in
  set_prompts prompts' (set_categoryOptions options2 (set_categoryList lis2 s)).

(** The click handler of the edit button of the item at [li]; [answer] is
    what [prompt('Rename category', oldDisplay)] returned, [None] when the
    dialog was cancelled. *)
Definition editCategoryClick (li : list nat) (answer : option jsstring)
    (s : State) : State :=
  match li_at li (categoryList s) with
  | None => s
  | Some item =>
      let oldKey := li_category item in
      match answer with
      | None | Some [] => s
      | Some newDisplay =>
          let newKey := toLowerCase (trim newDisplay) in
          if bool_decide (newKey = oldKey) then s
          else
            let exists_ :=
              existsb (λ other, bool_decide (li_category other = newKey))
                      (allLis (categoryList s)) in
            if exists_ then s
            else
              let newDisplayTrim := trim newDisplay in
              loadPrompts (updateDescendantKeys oldKey newKey newDisplayTrim s)
      end
  end.

Definition reassignPrompt (keyToDelete : jsstring) (p : Prompt) : Prompt :=
  if inCategory keyToDelete (p_category p) then set_category (str "other") p
  else p.

(** [deleteCategoryAndDescendants(keyToDelete, liElement)] with the item
    at [li] for [liElement]. *)
Definition deleteCategoryAndDescendants (keyToDelete : jsstring)
    (li : list nat) (s : State) : State :=
  let prompts' := reassignPrompt keyToDelete <$> prompts s in
  let options' :=
    filter (λ opt, inCategory keyToDelete (opt_value opt) = false)
           (categoryOptions s) in
  set_categoryList (li_remove li (categoryList s))
    (set_categoryOptions options' (set_prompts prompts' s)).


(** The click handler of [#confirmOk]. *)
Definition confirmOk (generateId : nat → jsstring) (now : jsstring)
    (s : State) : State :=
  match pendingConfirmAction s with
  | Some action =>
      let s :=
        match action with
        | ConfirmDeletePrompt promptId => deletePromptConfirmed promptId s
        | ConfirmDeleteCategory keyToDelete li =>
            loadPrompts (deleteCategoryAndDescendants keyToDelete li s)
        | ConfirmImport importedPrompts =>
            importConfirmed generateId now importedPrompts s
        end in
      set_pendingConfirmAction None s
  | None => s
  end.

(** [makeCategoryItem] on an item with the given [dataset]. *)
Definition makeCategoryItem (category name : jsstring) (sub : list Li) : Li :=
  let rawName := trim name in
  let key := toLowerCase (orDefault category rawName) in
  mkLi key rawName (bool_decide (key ∈ protect)) sub.

(** ** Share link *)

Definition hexDigit (n : N) : N :=
  default 48%N (str "0123456789abcdef" !! N.to_nat n).

(** The escape [\uXXXX] of a code unit. *)
Definition unicodeEscape (c : N) : jsstring :=
  str "\u" ++ [hexDigit (c / 4096 `mod` 16); hexDigit (c / 256 `mod` 16);
               hexDigit (c / 16 `mod` 16); hexDigit (c `mod` 16)]%N.

Definition isHighSurrogate (c : N) : bool := ((55296 <=? c) && (c <=? 56319))%N.
Definition isLowSurrogate (c : N) : bool := ((56320 <=? c) && (c <=? 57343))%N.

(** The body of a JSON string literal ([QuoteJSONString] of ECMAScript):
    the quote, the backslash and the control characters are escaped, a
    surrogate that is not part of a pair too; every other code unit stands
    for itself. *)
Fixpoint quoteUnits (s : jsstring) : jsstring :=
  match s with
  | [] => []
  | c :: s' =>
      if decide (c = 8%N) then str "\b" ++ quoteUnits s'
      else if decide (c = 9%N) then str "\t" ++ quoteUnits s'
      else if decide (c = 10%N) then str "\n" ++ quoteUnits s'
      else if decide (c = 12%N) then str "\f" ++ quoteUnits s'
      else if decide (c = 13%N) then str "\r" ++ quoteUnits s'
      else if decide (c = 34%N) then [92; 34]%N ++ quoteUnits s'
      else if decide (c = 92%N) then [92; 92]%N ++ quoteUnits s'
      else if (c <? 32)%N then unicodeEscape c ++ quoteUnits s'
      else if isHighSurrogate c then
        match s' with
        | d :: s'' =>
            if isLowSurrogate d then c :: d :: quoteUnits s''
            else unicodeEscape c ++ quoteUnits s'
        | [] => unicodeEscape c
        end
      else if isLowSurrogate c then unicodeEscape c ++ quoteUnits s'
      else c :: quoteUnits s'
  end.

Definition JSON_string (s : jsstring) : jsstring :=
  [34%N] ++ quoteUnits s ++ [34%N].

Definition JSON_array (a : list jsstring) : jsstring :=
  str "[" ++ join (str ",") (JSON_string <$> a) ++ str "]".

Definition JSON_integer (z : Z) : jsstring :=
  str (DecimalString.NilZero.string_of_int (Z.to_int z)).

(** [JSON.stringify(shareData)] for the object [sharePrompt] builds; a
    property whose value is [undefined] is left out. *)
Definition stringifyShareData (prompt : Prompt) : jsstring :=
  str "{" ++ [34%N] ++ str "title" ++ [34%N] ++ str ":"
  ++ JSON_string (p_title prompt)
  ++ str "," ++ [34%N] ++ str "category" ++ [34%N] ++ str ":"
  ++ JSON_string (p_category prompt)
  ++ str "," ++ [34%N] ++ str "tags" ++ [34%N] ++ str ":"
  ++ JSON_array (p_tags prompt)
  ++ str "," ++ [34%N] ++ str "text" ++ [34%N] ++ str ":"
  ++ JSON_string (p_text prompt)
  ++ str "," ++ [34%N] ++ str "notes" ++ [34%N] ++ str ":"
  ++ JSON_string (p_notes prompt)
  ++ match p_rating prompt with
     | Some rating =>
         str "," ++ [34%N] ++ str "rating" ++ [34%N] ++ str ":"
         ++ JSON_integer rating
     | None => []
     end
  ++ str "}".

Definition base64Unit (n : N) : N :=
  default 0%N
    (str "ABCDEFGHIJKLMNOPQRSTUVWXYZabcdefghijklmnopqrstuvwxyz0123456789+/"
       !! N.to_nat n).

Fixpoint base64 (bytes : list N) : jsstring :=
  match bytes with
  | a :: b :: c :: rest =>
      [base64Unit (a / 4); base64Unit (a `mod` 4 * 16 + b / 16);
       base64Unit (b `mod` 16 * 4 + c / 64); base64Unit (c `mod` 64)]%N
      ++ base64 rest
  | [a; b] =>
      [base64Unit (a / 4); base64Unit (a `mod` 4 * 16 + b / 16);
       base64Unit (b `mod` 16 * 4); 61]%N
  | [a] => [base64Unit (a / 4); base64Unit (a `mod` 4 * 16); 61; 61]%N
  | [] => []
  end.

(** [btoa(s)]: an [InvalidCharacterError] when [s] has a code unit above
    255, the base64 form of the bytes otherwise. *)
Definition btoa (s : jsstring) : Outcome jsstring :=
  if forallb (λ c, (c <=? 255)%N) s then Returns (base64 s)
  else Throws InvalidCharacterError.

(** [sharePrompt]: the value of the [shared] parameter of the link, [None]
    when no prompt has this id. *)
Definition sharePrompt (promptId : jsstring) (s : State)
    : Outcome (option jsstring) :=
  match list_find (λ p, p_id p = promptId) (prompts s) with
  | None => Returns None
  | Some (_, prompt) =>
      andThen (btoa (stringifyShareData prompt)) (λ encodedPrompt,
        Returns (Some encodedPrompt))
  end.

(** ** Sample data

    The two prompts of [addSampleData], with [generateId()] and the date
    replaced by fixed values, and the category list the script refers to:
    the two views [all] and [favorites], the categories named in
    [getCategoryDisplayName]. *)

Definition samplePrompt1 : Prompt :=
  mkPrompt (str "p1") (str "Fantasy Landscape Painting") (str "art")
    [str "landscape"; str "fantasy"; str "painting"; str "detailed"]
    (str "A breathtaking fantasy landscape with towering mountains, a mystical forest, and a crystal-clear river flowing through the valley. Digital painting, highly detailed, epic scale, cinematic lighting, by Albert Bierstadt and Thomas Kinkade, 8K resolution")
    (str "Works best with DALL-E 3 or Midjourney v5.2")
    None [] None (str "2026-01-01T00:00:00.000Z")
    (str "2026-01-01T00:00:00.000Z").

Definition samplePrompt2 : Prompt :=
  mkPrompt (str "p2") (str "Python Data Analysis Script") (str "code")
    [str "python"; str "data"; str "analysis"; str "pandas"]
    (str "Create a Python script using pandas to analyze a CSV dataset. Include data cleaning, visualization with matplotlib, and statistical summary. Add comments explaining each step.")
    (str "Adjust column names based on your dataset")
    None [] None (str "2026-01-01T00:00:00.000Z")
    (str "2026-01-01T00:00:00.000Z").

Definition sampleCategoryList : list Li :=
  [makeCategoryItem (str "all") (str "All Prompts") [];
   makeCategoryItem (str "favorites") (str "Favorites") [];
   makeCategoryItem (str "art") (str "Art & Images") [];
   makeCategoryItem (str "writing") (str "Writing") [];
   makeCategoryItem (str "code") (str "Code & Technical") [];
   makeCategoryItem (str "analysis") (str "Analysis") [];
   makeCategoryItem (str "creative") (str "Creative") [];
   makeCategoryItem (str "other") (str "Other") []].

Definition sampleOptions : list SelectOption :=
  [mkOption (str "art") (str "Art & Images");
   mkOption (str "writing") (str "Writing");
   mkOption (str "code") (str "Code & Technical");
   mkOption (str "analysis") (str "Analysis");
   mkOption (str "creative") (str "Creative");
   mkOption (str "other") (str "Other")].

(** The page showing [collection] under "All Prompts", nothing cached and
    no history. *)
Definition pageWith (collection : list Prompt) (categories : list Li)
    (options : list SelectOption) : State :=
  loadPrompts
    (mkState collection [] (str "all") None None [] [] ∅ [] categories
       options).

Definition sampleState : State :=
  pageWith [samplePrompt1; samplePrompt2] sampleCategoryList sampleOptions.

Definition emptyState : State := pageWith [] sampleCategoryList sampleOptions.

(** A form filled for a new prompt. *)
Definition sampleForm : PromptForm :=
  mkForm (str "Fantasy Landscape") (str "art") (str "landscape, fantasy")
    (str "A castle above the clouds") [] (Some 4%Z) [] None.



Definition artPrompt (promptId category : string) : Prompt :=
  mkPrompt (str promptId) (str "A title") (str category) []
    (str "A text") [] (Some 0%Z) [] None [] [].


(** A prompt whose title starts with the star the cards show for a
    rating. *)
Definition starredPrompt : Prompt :=
  mkPrompt (str "p3") ([11088%N] ++ str " Best landscape prompt") (str "art")
    [str "landscape"] (str "A castle above the clouds") []
    (Some 5%Z) [] None (str "2026-01-01T00:00:00.000Z")
    (str "2026-01-01T00:00:00.000Z").

(** The keys of all items, in document order. *)
Definition categoryKeys (categoryList : list Li) : list jsstring :=
  li_category <$> allLis categoryList.

(** One prompt in the reserved category "other", one in "art". *)
Definition reservedState : State :=
  pageWith [artPrompt "o1" "other"; artPrompt "a1" "art"]
    sampleCategoryList sampleOptions.

(** ** The search of the second script

    [README.md] carries a second version of the application (2.1) after
    its documentation.  Its [handleSearch] stores the trimmed, lower-cased
    value of the field in [state.searchQuery] and its [getFilteredPrompts]
    filters the collection itself.  The field [content] of that version is
    the field [text] of [script.js]. *)
Module V21.

Definition handleSearch (value : jsstring) : jsstring :=
  toLowerCase (trim value).

Definition matchesQuery (searchQuery : jsstring) (prompt : Prompt) : bool :=
  includes (toLowerCase (p_title prompt)) searchQuery
  || includes (toLowerCase (p_text prompt)) searchQuery
  || existsb (λ tag, includes (toLowerCase tag) searchQuery) (p_tags prompt)
  || (bool_decide (p_notes prompt ≠ [])
      && includes (toLowerCase (p_notes prompt)) searchQuery).

(** The search filter of [getFilteredPrompts]. *)
Definition getFilteredPrompts (searchQuery : jsstring)
    (prompts : list Prompt) : list Prompt :=
  if bool_decide (searchQuery ≠ [])
  then filter (λ prompt, matchesQuery searchQuery prompt = true) prompts
  else prompts.

End V21.

(** A card that also shows the text of the prompt in a [.prompt-text]
    element, which the markup of [createPromptCard] does not have. *)
Definition cardWithText (prompt : Prompt) : Card :=
  mkCard (p_id prompt) (p_title prompt) (Some (p_text prompt))
    (trim <$> p_tags prompt).

(** The sample page with such cards. *)
Definition sampleStateWithText : State :=
  set_promptCards (cardWithText <$> [samplePrompt1; samplePrompt2])
    sampleState.

(** ** The recurrence of the edit distance

    The value [getEditDistance] leaves at row [i], column [j], as a function
    of the two prefixes read backwards: the last characters are compared
    first.  When they differ, the minimum is taken over the diagonal, the
    left and the upper neighbour, in the order of the loop. *)
Fixpoint lev (xs ys : jsstring) : nat :=
  match xs with
  | [] => length ys
  | x :: xs' =>
      (fix lev_row (ys : jsstring) : nat :=
         match ys with
         | [] => S (length xs')
         | y :: ys' =>
             if decide ([x] ≠ [y])
             then S ((lev xs' ys' `min` lev_row ys') `min` lev xs' (y :: ys'))
             else lev xs' ys'
         end) ys
  end.

(** Row [i] of the table holds the recurrence on the prefixes of lengths
    [i] and [j]. *)
Definition levAt (s1 s2 : jsstring) (i j : nat) : nat :=
  lev (reverse (take i s1)) (reverse (take j s2)).

(** ** Text utilities and metrics *)

(** [text.substr(0, maxLength) + '...'] for the texts over [maxLength]. *)
Definition truncateText (text : jsstring) (maxLength : nat) : jsstring :=
  if decide (length text ≤ maxLength) then text
  else take maxLength text ++ str "...".

(** [s.split(/\s+/)]: the pieces between the maximal runs of white space.
    A unit of white space that is followed by another one belongs to a run
    that ends later; the last unit of a run closes the current piece.  The
    empty string gives one empty piece. *)
Fixpoint splitWhiteSpace (s : jsstring) : list jsstring :=
  match s with
  | [] => [[]]
  | c :: s' =>
      if isWhiteSpace c then
        match s' with
        | c' :: _ =>
            if isWhiteSpace c' then splitWhiteSpace s'
            else [] :: splitWhiteSpace s'
        | [] => [[]; []]
        end
      else match splitWhiteSpace s' with
           | w :: ws => (c :: w) :: ws
           | [] => [[c]]
           end
  end.

Definition calculateWordCount (text : jsstring) : nat :=
  length (splitWhiteSpace (trim text)).

Definition Math_ceil (x : Q) : Z := Qceiling x.

Definition estimateTokenCount (text : jsstring) : Z :=
  Math_ceil (Z.of_nat (length text) # 4).

Definition calculateComplexity (prompt : Prompt) : nat :=
  let wordCount := calculateWordCount (p_text prompt) in
  let hasDetails := bool_decide (50 < length (p_notes prompt)) in
  let hasImages := bool_decide (0 < length (p_resultImages prompt)) in
  let tagCount := length (p_tags prompt) in
  let score := 1 in
  let score := if decide (100 < wordCount) then score + 1 else score in
  let score := if decide (200 < wordCount) then score + 1 else score in
  let score := if hasDetails then score + 1 else score in
  let score := if hasImages then score + 1 else score in
  let score := if decide (3 ≤ tagCount) then score + 1 else score in
  score `min` 5.

Definition getComplexityLabel (complexity : nat) : jsstring :=
  if decide (complexity ≤ 1) then str "Simple"
  else if decide (complexity ≤ 2) then str "Basic"
  else if decide (complexity ≤ 3) then str "Moderate"
  else if decide (complexity ≤ 4) then str "Complex"
  else str "Very Complex".

(** A text laid out as words: white space, a first word, then separators
    each followed by a word, then white space. *)
Definition layout (pad1 : jsstring) (w : jsstring)
    (rest : list (jsstring * jsstring)) (pad2 : jsstring) : jsstring :=
  pad1 ++ w ++ (rest ≫= λ sw, sw.1 ++ sw.2) ++ pad2.

(** ** Search suggestions *)

(** The [#searchSuggestions] panel: the texts of its [.suggestion-item]
    elements, whether it has the class [active], and the index of the item
    that has the class [highlighted]. *)
Record Suggestions := mkSuggestions {
  sg_items : list jsstring;
  sg_active : bool;
  sg_highlighted : option nat
}.

(** [suggestions.add(x)] on a [Set], kept in insertion order. *)
Definition Set_add (x : jsstring) (suggestions : list jsstring)
    : list jsstring :=
  if decide (x ∈ suggestions) then suggestions else suggestions ++ [x].



(** [navigateSuggestions(direction)]; [items[nextIndex]] is [undefined]
    out of range, and then no item is highlighted. *)
Definition navigateSuggestions (direction : Z) (panel : Suggestions)
    : Suggestions :=
  let items := sg_items panel in
  if decide (length items = 0) then panel
  else
    let nextIndex : Z :=
      match sg_highlighted panel with
      | None =>
          if decide (0 < direction)%Z then 0%Z
          else (Z.of_nat (length items) - 1)%Z
      | Some currentIndex =>
          let nextIndex := (Z.of_nat currentIndex + direction)%Z in
          let nextIndex :=
            if decide (Z.of_nat (length items) ≤ nextIndex)%Z then 0%Z
            else nextIndex in
          let nextIndex :=
            if decide (nextIndex < 0)%Z then (Z.of_nat (length items) - 1)%Z
            else nextIndex in
          nextIndex
      end in
    mkSuggestions items (sg_active panel)
      (if decide (0 ≤ nextIndex < Z.of_nat (length items))%Z
       then Some (Z.to_nat nextIndex) else None).


(** ** Adding categories *)

(** [parent.insertBefore(x, parent.lastElementChild)]: before the last
    child, or as the only child. *)
Definition insertBeforeLast {A} (x : A) (l : list A) : list A :=
  take (length l - 1) l ++ x :: drop (length l - 1) l.

(** The path, from an item, of the first item in document order whose key
    is [key]. *)
Fixpoint li_path (key : jsstring) (li : Li) : option (list nat) :=
  match li with
  | mkLi k _ _ sub =>
      if decide (k = key) then Some []
      else (fix go (l : list Li) (i : nat) : option (list nat) :=
              match l with
              | [] => None
              | x :: r =>
                  match li_path key x with
                  | Some p => Some (i :: p)
                  | None => go r (S i)
                  end
              end) sub 0
  end.

(** [categoryList.querySelector('[data-category="key"]')], as a path from
    [#categoryList]; [i] is the index of the first item of [forest]. *)
Fixpoint forest_path (key : jsstring) (forest : list Li) (i : nat)
    : option (list nat) :=
  match forest with
  | [] => None
  | x :: r =>
      match li_path key x with
      | Some p => Some (i :: p)
      | None => forest_path key r (S i)
      end
  end.

(** The exception of [insertBefore] when the reference node is not a child
    of the node. *)
Inductive DOMException := NotFoundError.

(** The click handler of [#addCategoryBtn]; [value] is the value of
    [#newCategory].  The new item goes before the first element with the key
    "other", which has to be a child of [#categoryList], or to the end of
    the list when there is none. *)
Definition addCategoryClick (value : jsstring) (s : State)
    : State + DOMException :=
  let newCategory := trim value in
  if bool_decide (newCategory = []) then inl s
  else
    let key := toLowerCase newCategory in
    let exists_ :=
      existsb (λ li, bool_decide (li_category li = key))
              (allLis (categoryList s)) in
    if exists_ then inl s
    else
      let li := makeCategoryItem key newCategory [] in
      let option := mkOption key newCategory in
      let insert categoryList' :=
        set_categoryOptions (insertBeforeLast option (categoryOptions s))
          (set_categoryList categoryList' s) in
      match forest_path (str "other") (categoryList s) 0 with
      | None => inl (insert (categoryList s ++ [li]))
      | Some [i] =>
          inl (insert (take i (categoryList s) ++ li :: drop i (categoryList s)))
      | Some _ => inr NotFoundError
      end.



(** ** Batch processing *)

(** [batch.forEach(operation)]: [operation] gets the item and its index in
    the batch, counted from [i]; whatever it changes is the state [St]. *)
Fixpoint forEachFrom {A St} (operation : A → nat → St → St) (i : nat)
    (batch : list A) (st : St) : St :=
  match batch with
  | [] => st
  | x :: r => forEachFrom operation (S i) r (operation x i st)
  end.

(** [processBatch] of [batchOperation].  Every call but the last one ends
    with [setTimeout(processBatch, 0)]; [fuel] bounds the number of calls,
    and the result is [None] when the promise is not resolved within
    them. *)
Fixpoint processBatch {A St} (operation : A → nat → St → St) (fuel : nat)
    (items : list A) (batchSize index : nat) (st : St) : option St :=
  match fuel with
  | 0 => None
  | S fuel =>
      let batch := take batchSize (drop index items) in
      let st := forEachFrom operation 0 batch st in
      let index := index + batchSize in
      if decide (index < length items)
      then processBatch operation fuel items batchSize index st
      else Some st
  end.

Definition batchOperation {A St} (operation : A → nat → St → St)
    (fuel : nat) (items : list A) (batchSize : nat) (st : St) : option St :=
  processBatch operation fuel items batchSize 0 st.

(** ** Reading a share link *)









(** ** Empty state and statistics *)


(** The numbers that [updateStatistics] writes into the page. *)
Record Statistics := mkStatistics {
  totalPrompts : nat;
  totalFavorites : nat;
  totalCategories : nat;
  promptsWithImages : nat
}.

Definition updateStatistics (s : State) : Statistics :=
  mkStatistics (length (prompts s)) (length (favorites s))
    (length (foldl (λ categories prompt, Set_add (p_category prompt) categories)
                   [] (prompts s)))
    (length (filter (λ p, 0 < length (p_resultImages p)) (prompts s))).

(** [statAvgWords] of [updateDetailedStatistics]. *)
Definition statAvgWords (s : State) : Z :=
  let totalPrompts := length (prompts s) in
  let totalWords :=
    foldl (λ totalWords prompt,
             totalWords + calculateWordCount (p_text prompt)) 0 (prompts s) in
  if decide (0 < totalPrompts)
  then Math_round (Z.of_nat totalWords # Pos.of_nat totalPrompts)
  else 0%Z.

(** A prompt with a given text. *)
Definition textPrompt (promptId text : string) : Prompt :=
  mkPrompt (str promptId) (str "A title") (str "art") [] (str text) []
    (Some 0%Z) [] None [] [].

(** * Properties *)

(** ** Strings *)

Lemma startsWith_spec (s p : jsstring) :
  startsWith s p = true ↔ ∃ t, s = p ++ t.
Proof.
  revert s. induction p as [|c p IH]; intros s; simpl.
  - split; [intros _; by exists s | done].
  - destruct s as [|d s]; simpl.
    + split; [done | intros [t Ht]; discriminate].
    + destruct (decide (c = d)) as [->|Hne].
      * rewrite IH. split; intros [t Ht]; exists t; simpl in *; congruence.
      * split; [done | intros [t Ht]; simpl in Ht; congruence].
Qed.


Lemma includes_spec (s t : jsstring) :
  includes s t = true ↔ ∃ pre post, s = pre ++ t ++ post.
Proof.
  induction s as [|c s IH]; simpl.
  - rewrite orb_false_r, startsWith_spec. split.
    + intros [u Hu]. by exists [], u.
    + intros (pre & post & H). destruct pre; simpl in H.
      * by exists post.
      * discriminate.
  - rewrite orb_true_iff, startsWith_spec, IH. split.
    + intros [[u Hu]|(pre & post & H)].
      * by exists [], u.
      * exists (c :: pre), post. simpl. congruence.
    + intros (pre & post & H). destruct pre as [|d pre]; simpl in H.
      * left. by exists post.
      * right. exists pre, post. congruence.
Qed.

Lemma includes_nil (s : jsstring) : includes s [] = true.
Proof. destruct s; reflexivity. Qed.

(** ** Similarity engine *)

Lemma arr_get_fmap (r : list nat) (j : nat) :
  arr_get j (Some <$> r) = r !! j.
Proof.
  unfold arr_get. rewrite list_lookup_fmap. by destruct (r !! j).
Qed.

Lemma arr_set_middle (done : list nat) (d : nat) (rest : list nat) (v : nat) :
  arr_set (length done) (Some v) (Some <$> (done ++ d :: rest))
  = Some <$> (done ++ v :: rest).
Proof.
  unfold arr_set. rewrite length_fmap, length_app. simpl.
  destruct (decide _) as [_|Hn]; [|lia].
  rewrite !fmap_app. simpl.
  replace (length done) with (length (Some <$> done) + 0)
    by (rewrite length_fmap; lia).
  by rewrite insert_app_r.
Qed.

Lemma arr_set_end (r : list nat) (v : nat) :
  arr_set (length r) (Some v) (Some <$> r) = Some <$> (r ++ [v]).
Proof.
  unfold arr_set. rewrite length_fmap.
  destruct (decide _) as [Hlt|_]; [lia|].
  by rewrite Nat.sub_diag, fmap_app.
Qed.

(** Row 0 fills the array with [0 .. length s2]. *)
Lemma editStep_row0 (s1 s2 : jsstring) (k : nat) (last : jsnum) :
  foldl (editStep s1 s2 0) ([], last) (seq 0 k) = (Some <$> seq 0 k, last).
Proof.
  induction k as [|k IH]; [done|].
  rewrite seq_S, foldl_app, IH. simpl.
  pose proof (arr_set_end (seq 0 k) k) as H.
  rewrite length_seq in H. by rewrite H.
Qed.

Lemma editRow_0 (s1 s2 : jsstring) :
  editRow s1 s2 [] 0 = Some <$> tableRow s1 s2 0.
Proof. unfold editRow. by rewrite editStep_row0. Qed.

(** The columns [S k ..] of a later row: the loop overwrites the array in
    place and leaves the function's row behind. *)
Lemma editStep_tail (s1 s2 : jsstring) (i : nat) (suf : jsstring) :
  ∀ (k : nat) (done : list nat) (d last : nat) (rest : list nat),
    length done = k → length rest = length suf → drop k s2 = suf →
    (let '(costs', lastValue) :=
       foldl (editStep s1 s2 (S i))
             (Some <$> (done ++ d :: rest), Some last)
             (seq (S k) (length suf)) in
     arr_set (k + length suf) lastValue costs')
    = Some <$> (done ++ last :: rowTail (charAt s1 i) d last rest suf).
Proof.
  induction suf as [|b suf IH]; intros k done d last rest Hk Hrest Hdrop.
  - destruct rest; [|done]. simpl. rewrite Nat.add_0_r, <- Hk.
    apply arr_set_middle.
  - destruct rest as [|o rest]; [done|]. simpl in Hrest.
    assert (Hb : s2 !! k = Some b).
    { rewrite <- (Nat.add_0_r k), <- lookup_drop, Hdrop. done. }
    cbn [length seq foldl].
    unfold editStep at 2.
    destruct (decide (S i = 0)) as [|_]; [done|].
    destruct (decide (0 < S k)) as [_|]; [|lia].
    replace (S k - 1) with k by lia. replace (S i - 1) with i by lia.
    rewrite !arr_get_fmap.
    rewrite lookup_app_r, Hk, Nat.sub_diag by lia. cbn [lookup list_lookup].
    rewrite lookup_app_r by lia.
    replace (S k - length done) with 1 by lia. cbn [lookup list_lookup].
    rewrite <- Hk at 1. rewrite arr_set_middle.
    replace (done ++ last :: o :: rest) with ((done ++ [last]) ++ o :: rest)
      by (by rewrite <- app_assoc).
    assert (Hc : charAt s2 k = [b]) by (unfold charAt; by rewrite Hb).
    rewrite Hc.
    set (v := if decide (charAt s1 i ≠ [b])
              then S ((d `min` last) `min` o) else d).
    assert (Hv : (if decide (charAt s1 i ≠ [b])
                  then num_succ (num_min (num_min (Some d) (Some last)) (Some o))
                  else Some d) = Some v).
    { unfold v. by destruct (decide _). }
    rewrite Hv.
    replace (k + S (length suf)) with (S k + length suf) by lia.
    rewrite (IH (S k) (done ++ [last]) o v rest).
    + cbn [rowTail]. fold v. by rewrite <- app_assoc.
    + rewrite length_app. simpl. lia.
    + lia.
    + rewrite <- (Nat.add_1_r k), <- drop_drop, Hdrop. done.
Qed.

Lemma editRow_S (s1 s2 : jsstring) (i : nat) (old : list nat) :
  length old = S (length s2) →
  editRow s1 s2 (Some <$> old) (S i)
  = Some <$> nextRow (charAt s1 i) (S i) old s2.
Proof.
  intros Hlen. destruct old as [|d rest]; [done|]. simpl in Hlen.
  unfold editRow. cbn [seq foldl]. unfold editStep at 2.
  destruct (decide (S i = 0)) as [|_]; [done|].
  destruct (decide (0 < 0)) as [|_]; [lia|].
  destruct (decide (0 < S i)) as [_|]; [|lia].
  pose proof (editStep_tail s1 s2 i s2 0 [] d (S i) rest) as H.
  simpl in H. apply H; [done | lia | done].
Qed.

Lemma tableRow_length (s1 s2 : jsstring) (i : nat) :
  length (tableRow s1 s2 i) = S (length s2).
Proof.
  assert (Htail : ∀ c (old : list nat) (s : jsstring) d last,
    length old = length s → length (rowTail c d last old s) = length s).
  { intros c old. induction old as [|o old IH]; intros [|b s] d last Hl;
      try done. simpl in *. rewrite IH; lia. }
  induction i as [|i IH]; simpl.
  - by rewrite length_seq.
  - destruct (tableRow s1 s2 i) as [|d old]; [done|]. simpl in *.
    rewrite Htail; lia.
Qed.

(** The array after rows [0 .. i] is row [i] of the table. *)
Lemma editRow_table (s1 s2 : jsstring) (i : nat) :
  foldl (editRow s1 s2) [] (seq 0 (S i)) = Some <$> tableRow s1 s2 i.
Proof.
  induction i as [|i IH].
  - apply editRow_0.
  - rewrite seq_S, foldl_app, IH. simpl.
    apply editRow_S, tableRow_length.
Qed.

Lemma getEditDistance_table (s1 s2 : jsstring) :
  getEditDistance s1 s2 = tableRow s1 s2 (length s1) !! length s2.
Proof. unfold getEditDistance. by rewrite editRow_table, arr_get_fmap. Qed.

(** Every entry of row [i], column [j] is at most [max i j]. *)
Lemma rowTail_bound (c : jsstring) (old : list nat) :
  ∀ (s : jsstring) (d last k i : nat),
    d ≤ i `max` k →
    (∀ j v, old !! j = Some v → v ≤ i `max` (S k + j)) →
    ∀ j v, rowTail c d last old s !! j = Some v → v ≤ S i `max` (S k + j).
Proof.
  induction old as [|o old IH]; intros s d last k i Hd Hold j v; [done|].
  destruct s as [|b s]; [done|]. cbn [rowTail].
  destruct j as [|j]; cbn [lookup list_lookup].
  - intros [= <-]. pose proof (Hold 0 o eq_refl).
    destruct (decide _); lia.
  - intros Hv. replace (S k + S j) with (S (S k) + j) by lia.
    eapply (IH s o _ (S k) i); [| |exact Hv].
    + specialize (Hold 0 o eq_refl). lia.
    + intros j' v' Hj'. specialize (Hold (S j') v' Hj'). 
      replace (S (S k) + j') with (S k + S j') by lia. done.
Qed.

Lemma tableRow_bound (s1 s2 : jsstring) (i : nat) :
  ∀ j v, tableRow s1 s2 i !! j = Some v → v ≤ i `max` j.
Proof.
  induction i as [|i IH]; intros j v; cbn [tableRow].
  - rewrite lookup_seq. lia.
  - pose proof (tableRow_length s1 s2 i) as Hlen.
    destruct (tableRow s1 s2 i) as [|d old]; [done|]. cbn [nextRow].
    destruct j as [|j]; cbn [lookup list_lookup].
    + intros [= <-]. lia.
    + intros Hv.
      eapply (rowTail_bound _ old s2 d (S i) 0 i) in Hv; [lia| |].
      * specialize (IH 0 d eq_refl). lia.
      * intros j' v' Hj'. apply (IH (S j') v' Hj').
Qed.

(** [getEditDistance] always returns a number, and it is no larger than
    the longer of its two arguments. *)
Lemma getEditDistance_bound (s1 s2 : jsstring) :
  ∃ d, getEditDistance s1 s2 = Some d ∧ d ≤ length s1 `max` length s2.
Proof.
  rewrite getEditDistance_table.
  destruct (lookup_lt_is_Some_2 (tableRow s1 s2 (length s1)) (length s2))
    as [d Hd].
  { rewrite tableRow_length. lia. }
  exists d. split; [done|]. by eapply tableRow_bound.
Qed.

(** A zero on the diagonal is carried to the next row when the characters
    agree. *)
Lemma rowTail_diag (c : jsstring) (old : list nat) :
  ∀ (s : jsstring) (d last t : nat) (b : N),
    length old = length s →
    (d :: old) !! t = Some 0 → s !! t = Some b → c = [b] →
    rowTail c d last old s !! t = Some 0.
Proof.
  induction old as [|o old IH]; intros s d last t b Hlen Hd Hs Hc.
  - destruct s; [done|discriminate].
  - destruct s as [|b' s]; [discriminate|]. cbn [rowTail].
    destruct t as [|t]; cbn [lookup list_lookup] in *.
    + injection Hd as ->. injection Hs as ->.
      destruct (decide (c ≠ [b])); [done|reflexivity].
    + eapply IH; eauto.
Qed.

Lemma tableRow_diag (a : jsstring) (i : nat) :
  i ≤ length a → tableRow a a i !! i = Some 0.
Proof.
  induction i as [|i IH]; intros Hi; [done|]. cbn [tableRow].
  pose proof (tableRow_length a a i) as Hlen.
  destruct (tableRow a a i) as [|d old] eqn:Hrow; [done|]. cbn [nextRow].
  cbn [lookup list_lookup].
  destruct (lookup_lt_is_Some_2 a i) as [b Hb]; [lia|].
  apply (rowTail_diag _ old a d (S i) i b).
  - simpl in Hlen. lia.
  - apply IH. lia.
  - done.
  - unfold charAt. by rewrite Hb.
Qed.

Lemma getEditDistance_refl (a : jsstring) : getEditDistance a a = Some 0.
Proof. rewrite getEditDistance_table. by apply tableRow_diag. Qed.

Lemma Zpos_of_nat (n : nat) : n ≠ 0 → Z.pos (Pos.of_nat n) = Z.of_nat n.
Proof. intros Hn. destruct n; [done|]. rewrite <- Pos.of_nat_succ. lia. Qed.

(** [calculateSimilarity] as a quotient of the distance. *)
Lemma calculateSimilarity_quotient (a b : jsstring) :
  length a `max` length b ≠ 0 →
  ∃ d, d ≤ length a `max` length b ∧
    calculateSimilarity a b
    = Some ((Z.of_nat (length a `max` length b) - Z.of_nat d)
            # Pos.of_nat (length a `max` length b))%Q.
Proof.
  intros Hn. unfold calculateSimilarity.
  destruct (decide (length b < length a)) as [Hlt|Hge].
  - destruct (decide (length a = 0)) as [|_]; [lia|].
    destruct (getEditDistance_bound a b) as (d & -> & Hd).
    exists d. replace (length a `max` length b) with (length a) in * by lia.
    done.
  - destruct (decide (length b = 0)) as [|_]; [lia|].
    destruct (getEditDistance_bound b a) as (d & -> & Hd).
    exists d. replace (length a `max` length b) with (length b) in * by lia.
    split; [lia|done].
Qed.

(** C3: [calculateSimilarity(a, b)] is a number in [0, 1] for all strings,
    [calculateSimilarity(a, a)] is 1 for every string, and the similarity
    of two empty strings is 1. *)
Theorem calculateSimilarity_bounds :
  (∀ a b : jsstring,
     ∃ q, calculateSimilarity a b = Some q ∧ (0 <= q)%Q ∧ (q <= 1)%Q)
  ∧ (∀ a : jsstring, ∃ q, calculateSimilarity a a = Some q ∧ (q == 1)%Q)
  ∧ calculateSimilarity [] [] = Some 1%Q.
Proof.
  split; [|split].
  - intros a b. destruct (decide (length a `max` length b = 0)) as [H0|Hn].
    + exists 1%Q. split; [|done]. unfold calculateSimilarity.
      destruct (decide (length b < length a)); [lia|].
      destruct (decide (length b = 0)); [done|lia].
    + destruct (calculateSimilarity_quotient a b Hn) as (d & Hd & ->).
      eexists; split; [done|].
      unfold Qle; cbn [Qnum Qden]. rewrite Zpos_of_nat by done. lia.
  - intros a. unfold calculateSimilarity.
    destruct (decide (length a < length a)); [lia|].
    destruct (decide (length a = 0)) as [|Hn]; [by exists 1%Q|].
    rewrite getEditDistance_refl. cbn. eexists; split; [done|].
    unfold Qeq; cbn [Qnum Qden]. rewrite Zpos_of_nat by done. lia.
  - reflexivity.
Qed.

(** ** Duplicate detector *)

Lemma foldl_append {A B} (f : list A → B → list A) (g : B → list A)
    (l : list B) (acc : list A) :
  (∀ acc x, f acc x = acc ++ g x) → foldl f acc l = acc ++ (l ≫= g).
Proof.
  intros Hf. revert acc. induction l as [|x l IH]; intros acc; simpl.
  - by rewrite app_nil_r.
  - by rewrite IH, Hf, <- app_assoc.
Qed.

Lemma duplicateStep_append (prompts : list Prompt) (i j : nat)
    (duplicates : list Duplicate) :
  duplicateStep prompts i duplicates j
  = duplicates ++ duplicateOf prompts i j.
Proof.
  unfold duplicateOf, duplicateStep.
  destruct (prompts !! i), (prompts !! j); rewrite ?app_nil_r; try done.
  destruct (exceedsThreshold _); by rewrite ?app_nil_r.
Qed.

Lemma exceedsThreshold_spec (sim : option Q) :
  exceedsThreshold sim = true ↔ ∃ q, sim = Some q ∧ (7 # 10 < q)%Q.
Proof.
  destruct sim as [q|]; simpl.
  - rewrite negb_true_iff, <- not_true_iff_false, Qle_bool_iff. split.
    + intros H. exists q. split; [done|]. by apply Qnot_le_lt.
    + intros (q' & [= <-] & H). by apply Qlt_not_le.
  - split; [done | by intros (q & ? & _)].
Qed.

Lemma duplicateOf_spec (prompts : list Prompt) (i j : nat) (d : Duplicate) :
  d ∈ duplicateOf prompts i j ↔
  ∃ pi pj q, prompts !! i = Some pi ∧ prompts !! j = Some pj ∧
    calculateSimilarity (p_text pi) (p_text pj) = Some q ∧ (7 # 10 < q)%Q ∧
    d = mkDuplicate pi pj (Math_round (q * 100)).
Proof.
  unfold duplicateOf, duplicateStep.
  destruct (prompts !! i) as [pi|];
    [|split; [by intros ?%elem_of_nil | by intros (? & ? & ? & ? & _)]].
  destruct (prompts !! j) as [pj|];
    [|split; [by intros ?%elem_of_nil | by intros (? & ? & ? & _ & ? & _)]].
  destruct (exceedsThreshold _) eqn:Hsim.
  - apply exceedsThreshold_spec in Hsim as (q & Hq & Hlt). rewrite Hq. simpl.
    rewrite list_elem_of_singleton. split.
    + intros ->. by exists pi, pj, q.
    + intros (pi' & pj' & q' & [= <-] & [= <-] & Hq' & _ & ->).
      rewrite Hq in Hq'. by injection Hq' as <-.
  - split; [by intros ?%elem_of_nil|].
    intros (pi' & pj' & q' & [= <-] & [= <-] & Hq & Hlt & _).
    assert (exceedsThreshold (calculateSimilarity (p_text pi) (p_text pj))
            = true) as Ht by (apply exceedsThreshold_spec; eauto).
    congruence.
Qed.

Lemma findDuplicatePrompts_bind (prompts : list Prompt) :
  findDuplicatePrompts prompts
  = seq 0 (length prompts) ≫= λ i,
      seq (i + 1) (length prompts - (i + 1)) ≫= duplicateOf prompts i.
Proof.
  unfold findDuplicatePrompts.
  rewrite (foldl_append _ (λ i, seq (i + 1) (length prompts - (i + 1))
                                  ≫= duplicateOf prompts i)); [done|].
  intros acc i. apply foldl_append. intros acc' j.
  apply duplicateStep_append.
Qed.

(** C4: [findDuplicatePrompts] reports a pair of records exactly when the
    similarity of their texts is strictly above 0.7, with the rounded
    hundredfold of the similarity; the records with texts "Create a Python
    script" and "Create a Python scripts" are reported with at least 90. *)
Theorem findDuplicatePrompts_spec :
  (∀ (prompts : list Prompt) (d : Duplicate),
     d ∈ findDuplicatePrompts prompts ↔
     ∃ i j pi pj q, i < j ∧
       prompts !! i = Some pi ∧ prompts !! j = Some pj ∧
       calculateSimilarity (p_text pi) (p_text pj) = Some q ∧
       (7 # 10 < q)%Q ∧
       d = mkDuplicate pi pj (Math_round (q * 100)))
  ∧ (∀ r1 r2 : Prompt,
       p_text r1 = str "Create a Python script" →
       p_text r2 = str "Create a Python scripts" →
       ∃ pct, findDuplicatePrompts [r1; r2] = [mkDuplicate r1 r2 pct]
              ∧ (90 ≤ pct)%Z).
Proof.
  split.
  - intros prompts d. rewrite findDuplicatePrompts_bind, list_elem_of_bind.
    split.
    + intros (i & Hd & Hi). apply list_elem_of_bind in Hd as (j & Hd & Hj).
      apply elem_of_seq in Hj.
      apply duplicateOf_spec in Hd as (pi & pj & q & ? & ? & ? & ? & ->).
      exists i, j, pi, pj, q. repeat split; try done. lia.
    + intros (i & j & pi & pj & q & Hij & Hi & Hj & Hq & Hlt & ->).
      pose proof (lookup_lt_Some _ _ _ Hi). pose proof (lookup_lt_Some _ _ _ Hj).
      exists i. split; [|apply elem_of_seq; lia].
      apply list_elem_of_bind. exists j. split; [|apply elem_of_seq; lia].
      apply duplicateOf_spec. by exists pi, pj, q.
  - intros r1 r2 H1 H2. exists 96%Z. split; [|lia].
    unfold findDuplicatePrompts. cbn [length seq foldl Nat.add Nat.sub].
    unfold duplicateStep at 1. cbn [lookup list_lookup]. rewrite H1, H2.
    reflexivity.
Qed.

Lemma findDuplicatePrompts_witness :
  ∃ pct,
    findDuplicatePrompts
      [mkPrompt (str "a") (str "First") (str "code") []
         (str "Create a Python script") [] None [] None [] [];
       mkPrompt (str "b") (str "Second") (str "code") []
         (str "Create a Python scripts") [] None [] None [] []]
    = [mkDuplicate
         (mkPrompt (str "a") (str "First") (str "code") []
            (str "Create a Python script") [] None [] None [] [])
         (mkPrompt (str "b") (str "Second") (str "code") []
            (str "Create a Python scripts") [] None [] None [] []) pct]
    ∧ (90 ≤ pct)%Z.
Proof.
  apply (proj2 findDuplicatePrompts_spec); reflexivity.
Defined.

(** ** Record store *)

Lemma findIndex_head (p : Prompt) (l : list Prompt) :
  findIndex (p_id p) (p :: l) = Some 0.
Proof.
  unfold findIndex. cbn [list_find].
  by destruct (decide (p_id p = p_id p)).
Qed.

Lemma last_saveState (s : State) :
  last (undoStack (saveState s)) = Some (prompts s)
  ∧ redoStack (saveState s) = [] ∧ prompts (saveState s) = prompts s
  ∧ editingPromptId (saveState s) = editingPromptId s.
Proof.
  unfold saveState. cbn.
  destruct (decide (20 < length (undoStack s ++ [prompts s]))) as [Hlen|_];
    cbn.
  - split; [|done]. destruct (undoStack s) as [|x l]; simpl in *; [lia|].
    rewrite drop_0. apply last_snoc.
  - split; [|done]. apply last_snoc.
Qed.

(** [undo] puts the top snapshot back, whatever happened to the collection
    since it was taken. *)
Lemma prompts_undo (s : State) (snapshot : list Prompt) :
  last (undoStack s) = Some snapshot → prompts (undo s) = snapshot.
Proof. intros H. unfold undo. by rewrite H. Qed.

Lemma savePrompt_valid (generateId now : jsstring) (form : PromptForm)
    (s : State) :
  trim (promptTitle form) ≠ [] → promptCategory form ≠ [] →
  trim (promptText form) ≠ [] →
  undoStack (savePrompt generateId now form s) = undoStack (saveState s)
  ∧ redoStack (savePrompt generateId now form s) = []
  ∧ searchCache (savePrompt generateId now form s) = ∅
  ∧ (editingPromptId s = None →
     prompts (savePrompt generateId now form s)
     = mkPrompt generateId (trim (promptTitle form)) (promptCategory form)
         (filter (λ tag, tag ≠ []) (trim <$> split 44 (promptTags form)))
         (trim (promptText form)) (trim (promptNotes form))
         (Some (default 0%Z (promptRating form)))
         (formResultImages form) (formInputImage form) now now
       :: prompts s).
Proof.
  intros Ht Hc Hx. unfold savePrompt.
  rewrite !bool_decide_eq_false_2 by done. cbn [orb].
  destruct (last_saveState s) as (_ & Hredo & Hp & He).
  rewrite He.
  destruct (editingPromptId s) as [[|c e]|] eqn:Hedit; cbn.
  - by rewrite Hredo, Hp.
  - destruct (findIndex (c :: e) (prompts (saveState s))); cbn;
      by rewrite ?Hredo.
  - by rewrite Hredo, Hp.
Qed.

Lemma deletePrompt_confirmed_head (gen : nat → jsstring) (now : jsstring)
    (p : Prompt) (l : list Prompt) (s : State) :
  prompts s = p :: l →
  let s' := confirmOk gen now (deletePrompt (p_id p) s) in
  prompts s' = l ∧ undoStack s' = undoStack s ∧ redoStack s' = redoStack s
  ∧ searchCache s' = ∅.
Proof.
  intros Hp. unfold deletePrompt. rewrite Hp, findIndex_head.
  unfold confirmOk. cbn. unfold deletePromptConfirmed. cbn.
  rewrite Hp, findIndex_head. cbn.
  by destruct (indexOf (p_id p) (favorites s)).
Qed.

(** Of the operations that change the collection, only [savePrompt]
    touches the undo stack. *)
Lemma undoStack_frame (gen : nat → jsstring) (now : jsstring) (s : State) :
  (∀ promptId, undoStack (deletePromptConfirmed promptId s) = undoStack s)
  ∧ (∀ importedPrompts,
       undoStack (importConfirmed gen now importedPrompts s) = undoStack s)
  ∧ (∀ oldKey newKey newDisplay,
       undoStack (updateDescendantKeys oldKey newKey newDisplay s)
       = undoStack s)
  ∧ (∀ keyToDelete li,
       undoStack (deleteCategoryAndDescendants keyToDelete li s)
       = undoStack s).
Proof.
  repeat split; try done.
  intros promptId. unfold deletePromptConfirmed.
  destruct (findIndex promptId (prompts s)); [|done]. cbn.
  by destruct (indexOf promptId (favorites s)).
Qed.

(** C1, amended: [savePrompt] pushes the collection onto the undo stack
    before it changes it, and [undo] right after it restores that
    collection.  The confirmed action of [deletePrompt] pushes nothing:
    after a creation, the deletion of the new record and [undo], the
    collection is the one from before the creation. *)
Theorem savePrompt_snapshot_undo (generateId now : jsstring)
    (gen : nat → jsstring) (form : PromptForm) (s : State) :
  trim (promptTitle form) ≠ [] → promptCategory form ≠ [] →
  trim (promptText form) ≠ [] →
  let s1 := savePrompt generateId now form s in
  let s2 := confirmOk gen now (deletePrompt generateId s1) in
  (last (undoStack s1) = Some (prompts s) ∧ redoStack s1 = []
   ∧ prompts (undo s1) = prompts s)
  ∧ (editingPromptId s = None →
     p_id <$> head (prompts s1) = Some generateId
     ∧ tail (prompts s1) = prompts s
     ∧ undoStack s2 = undoStack s1
     ∧ prompts s2 = prompts s
     ∧ prompts (undo s2) = prompts s).
Proof.
  intros Ht Hc Hx s1 s2.
  destruct (savePrompt_valid generateId now form s Ht Hc Hx)
    as (Hundo & Hredo & _ & Hcreate).
  fold s1 in Hundo, Hredo, Hcreate.
  assert (Hlast : last (undoStack s1) = Some (prompts s)).
  { rewrite Hundo. apply last_saveState. }
  split.
  - repeat split; [done..|]. by apply prompts_undo.
  - intros Hedit. specialize (Hcreate Hedit).
    set (p := mkPrompt generateId _ _ _ _ _ _ _ _ _ _) in Hcreate.
    destruct (deletePrompt_confirmed_head gen now p (prompts s) s1 Hcreate)
      as (Hp2 & Hu2 & _).
    change (p_id p) with generateId in Hp2, Hu2. fold s2 in Hp2, Hu2.
    rewrite Hcreate. repeat split; try done.
    apply prompts_undo. by rewrite Hu2.
Qed.

Lemma savePrompt_snapshot_undo_witness :
  (trim (promptTitle sampleForm) ≠ [] ∧ promptCategory sampleForm ≠ []
   ∧ trim (promptText sampleForm) ≠ [])
  ∧ prompts (undo (confirmOk (λ _, []) []
                     (deletePrompt (str "n1")
                        (savePrompt (str "n1") [] sampleForm sampleState))))
    = prompts sampleState.
Proof.
  split.
  - by vm_compute.
  - apply (savePrompt_snapshot_undo (str "n1") [] (λ _, []) sampleForm
             sampleState); by vm_compute.
Defined.

(** C1 as stated fails: on the empty collection, after the new record is
    created and deleted, [undo] leaves the collection without any record
    of that id, and the deletion has pushed no snapshot. *)
Lemma deletePrompt_undo_counterexample :
  let s1 := savePrompt (str "n1") [] sampleForm emptyState in
  let s2 := confirmOk (λ _, []) [] (deletePrompt (str "n1") s1) in
  p_id <$> prompts s1 = [str "n1"]
  ∧ prompts s2 = []
  ∧ undoStack s2 = undoStack s1
  ∧ ¬ (∃ p, p ∈ prompts (undo s2) ∧ p_id p = str "n1").
Proof.
  repeat split; try by vm_compute.
  intros (p & Hp & _). vm_compute in Hp. by apply elem_of_nil in Hp.
Qed.

(** ** Favourites *)


Lemma toggleFavorite_frame (promptId : jsstring) (s : State) :
  prompts (toggleFavorite promptId s) = prompts s
  ∧ undoStack (toggleFavorite promptId s) = undoStack s
  ∧ redoStack (toggleFavorite promptId s) = redoStack s.
Proof.
  unfold toggleFavorite.
  destruct (indexOf promptId (favorites s)); cbn;
    by destruct (decide (currentCategory s = str "favorites")).
Qed.




(** ** Category list *)








(** The handler reaches [updateDescendantKeys] for every answer that is
    not empty, gives a key other than the item's and the key of no item;
    it asks nothing else of the item or of the answer. *)
Lemma editCategoryClick_renames (li : list nat) (item : Li)
    (newDisplay : jsstring) (s : State) :
  li_at li (categoryList s) = Some item →
  newDisplay ≠ [] →
  toLowerCase (trim newDisplay) ≠ li_category item →
  toLowerCase (trim newDisplay) ∉ categoryKeys (categoryList s) →
  editCategoryClick li (Some newDisplay) s
  = loadPrompts (updateDescendantKeys (li_category item)
                   (toLowerCase (trim newDisplay)) (trim newDisplay) s).
Proof.
  intros Hli Hd Hne Hfree. unfold editCategoryClick. rewrite Hli.
  destruct newDisplay as [|c d]; [done|].
  rewrite bool_decide_eq_false_2 by done.
  destruct (existsb _ _) eqn:Hex; [|done].
  apply existsb_exists in Hex as (other & Hother & Hkey).
  apply bool_decide_eq_true in Hkey. exfalso. apply Hfree.
  unfold categoryKeys. rewrite <- Hkey.
  apply list_elem_of_fmap_2. by apply list_elem_of_In.
Qed.








(** [makeCategoryItem] hides the delete button of the reserved keys and
    of no other key. *)
Lemma makeCategoryItem_delHidden (category name : jsstring) (sub : list Li) :
  li_delHidden (makeCategoryItem category name sub) = false ↔
  li_category (makeCategoryItem category name sub) ∉ protect.
Proof.
  unfold makeCategoryItem. cbn [li_delHidden li_category].
  by rewrite bool_decide_eq_false.
Qed.



(** C6 fails on the code: the edit handler does not consult [protect].
    Renaming the reserved item "other" to "Misc" goes through: the item
    gets the key "misc", its option too, and the record that was in
    "other" is moved to "misc"; the view "favorites" is renamed the same
    way. *)
Theorem editCategoryClick_renames_reserved :
  let s' := editCategoryClick [7] (Some (str "Misc")) reservedState in
  let s'' := editCategoryClick [1] (Some (str "Starred")) reservedState in
  categoryKeys (categoryList reservedState)
  = [str "all"; str "favorites"; str "art"; str "writing"; str "code";
     str "analysis"; str "creative"; str "other"]
  ∧ li_delHidden <$> li_at [7] (categoryList reservedState) = Some true
  ∧ categoryKeys (categoryList s')
    = [str "all"; str "favorites"; str "art"; str "writing"; str "code";
       str "analysis"; str "creative"; str "misc"]
  ∧ li_name <$> li_at [7] (categoryList s') = Some (str "Misc")
  ∧ opt_value <$> categoryOptions s'
    = [str "art"; str "writing"; str "code"; str "analysis";
       str "creative"; str "misc"]
  ∧ p_category <$> prompts reservedState = [str "other"; str "art"]
  ∧ p_category <$> prompts s' = [str "misc"; str "art"]
  ∧ categoryKeys (categoryList s'')
    = [str "all"; str "starred"; str "art"; str "writing"; str "code";
       str "analysis"; str "creative"; str "other"].
Proof. by vm_compute. Qed.

(** The handler gives the same result whether or not the delete button of
    the item is hidden. *)
Lemma editCategoryClick_ignores_protect (li : list nat) (item : Li)
    (newDisplay : jsstring) (s : State) :
  li_at li (categoryList s) = Some item →
  li_category item ∈ protect →
  newDisplay ≠ [] →
  toLowerCase (trim newDisplay) ≠ li_category item →
  toLowerCase (trim newDisplay) ∉ categoryKeys (categoryList s) →
  prompts (editCategoryClick li (Some newDisplay) s)
  = renamePrompt (li_category item) (toLowerCase (trim newDisplay))
    <$> prompts s.
Proof.
  intros Hat _ Hd Hne Hfree.
  by rewrite (editCategoryClick_renames li item newDisplay s Hat Hd Hne Hfree).
Qed.

(** ** Search *)

Lemma searchCards_throws (searchTerm : jsstring) (prompt : Prompt)
    (rendered : list Prompt) (results : list jsstring) :
  searchCards searchTerm (createPromptCard <$> prompt :: rendered) results
  = Throws TypeError.
Proof. reflexivity. Qed.

(** Whenever a card is on the page and the term is not cached, the handler
    stops with a [TypeError] at the first card: [createPromptCard] gives a
    card no [.prompt-text]. *)
Lemma searchInput_throws (value : jsstring) (s : State) :
  searchCache (loadPrompts s) !! trim (toLowerCase value) = None →
  promptCards (loadPrompts s) ≠ [] →
  searchInput value (loadPrompts s) = Throws TypeError.
Proof.
  intros Hmiss Hcards. unfold searchInput. rewrite Hmiss.
  unfold loadPrompts in *. cbn [promptCards set_promptCards] in *.
  destruct (if decide (currentCategory s = str "favorites") then _ else _)
    as [|prompt rendered]; [done|].
  destruct (inheritedProperty _); [done|].
  by rewrite searchCards_throws.
Qed.

(** On cards that do carry their text, the handler collects the ids of
    the cards with the term in the lower-cased title, text or some tag;
    the notes are not on the card. *)
Lemma searchCards_with_text (searchTerm : jsstring) (cards : list Card) :
  ∀ results : list jsstring,
    (∀ card, card ∈ cards → is_Some (card_prompt_text card)) →
    ∃ ids,
      searchCards searchTerm cards results = Returns (results ++ ids)
      ∧ ∀ id, id ∈ ids ↔
          ∃ card text, card ∈ cards ∧ card_id card = id
            ∧ card_prompt_text card = Some text
            ∧ (includes (toLowerCase (card_title_text card)) searchTerm = true
               ∨ includes (toLowerCase text) searchTerm = true
               ∨ ∃ tag, tag ∈ card_tags card
                        ∧ includes (toLowerCase tag) searchTerm = true).
Proof.
  induction cards as [|card cards IH]; intros results Htext.
  - exists []. split; [by rewrite app_nil_r|].
    intros id. split; [by intros ?%elem_of_nil|].
    by intros (card & text & ?%elem_of_nil & _).
  - destruct (Htext card) as [text Hcard]; [by left|].
    cbn [searchCards]. unfold cardMatches. rewrite Hcard. cbn [andThen].
    set (matches := _ || _ || _).
    assert (Hmatches : matches = true ↔
      includes (toLowerCase (card_title_text card)) searchTerm = true
      ∨ includes (toLowerCase text) searchTerm = true
      ∨ ∃ tag, tag ∈ card_tags card
               ∧ includes (toLowerCase tag) searchTerm = true).
    { unfold matches. rewrite !orb_true_iff, existsb_exists. split.
      - intros [[?|?]|(tag' & Hin & ?)]; [by left|right; by left|].
        apply list_elem_of_In, list_elem_of_fmap in Hin as (tag & -> & Hin).
        right; right. by exists tag.
      - intros [?|[?|(tag & Hin & ?)]]; [left; by left|left; by right|].
        right. exists (toLowerCase tag). split; [|done].
        apply list_elem_of_In. by apply list_elem_of_fmap_2. }
    destruct (IH (if matches then results ++ [card_id card] else results))
      as (ids & Hids & Hspec).
    { intros c Hc. apply Htext. by right. }
    exists ((if matches then [card_id card] else []) ++ ids). split.
    + rewrite Hids. by destruct matches; rewrite <- ?app_assoc.
    + intros id. rewrite elem_of_app, Hspec. split.
      * intros [Hid|(c & t & Hc & ?)].
        -- destruct matches eqn:Hm; [|by apply elem_of_nil in Hid].
           apply list_elem_of_singleton in Hid as ->.
           exists card, text. repeat split; [by left|done|by apply Hmatches].
        -- exists c, t. split; [by right|done].
      * intros (c & t & [->|Hc]%elem_of_cons & Hid & Ht & Hm).
        -- left. assert (t = text) as -> by congruence.
           apply Hmatches in Hm. rewrite Hm, <- Hid. by left.
        -- right. by exists c, t.
Qed.

Lemma searchCards_empty_term (cards : list Card) :
  ∀ results : list jsstring,
    (∀ card, card ∈ cards → is_Some (card_prompt_text card)) →
    searchCards [] cards results = Returns (results ++ (card_id <$> cards)).
Proof.
  induction cards as [|card cards IH]; intros results Htext.
  - by rewrite app_nil_r.
  - destruct (Htext card) as [text Hcard]; [by left|].
    cbn [searchCards]. unfold cardMatches. rewrite Hcard, includes_nil.
    cbn [andThen orb]. rewrite IH, <- app_assoc; [done|].
    intros c Hc. apply Htext. by right.
Qed.

(** What the handler is written to compute.  On a page whose cards carry
    their text, for a term that is not cached, it returns and caches
    exactly the ids of the cards on display with the lower-cased, trimmed
    term in the lower-cased title, or text, or some tag; the notes are not
    searched.  The empty term matches every card on display. *)
Lemma searchInput_matches (value : jsstring) (s : State) :
  searchCache s !! trim (toLowerCase value) = None →
  inheritedProperty (trim (toLowerCase value)) = false →
  (∀ card, card ∈ promptCards s → is_Some (card_prompt_text card)) →
  ∃ ids,
    searchInput value s
    = Returns (set_searchCache
                 (<[trim (toLowerCase value) := ids]> (searchCache s)) s, ids)
    ∧ (∀ id, id ∈ ids ↔
         ∃ card text, card ∈ promptCards s ∧ card_id card = id
           ∧ card_prompt_text card = Some text
           ∧ (includes (toLowerCase (card_title_text card))
                       (trim (toLowerCase value)) = true
              ∨ includes (toLowerCase text) (trim (toLowerCase value)) = true
              ∨ ∃ tag, tag ∈ card_tags card
                       ∧ includes (toLowerCase tag)
                                  (trim (toLowerCase value)) = true))
    ∧ (trim (toLowerCase value) = [] → ids = card_id <$> promptCards s).
Proof.
  intros Hmiss Hown Htext. unfold searchInput. rewrite Hmiss, Hown.
  destruct (searchCards_with_text (trim (toLowerCase value)) (promptCards s)
              [] Htext) as (ids & Hids & Hspec).
  exists ids. rewrite Hids. cbn [andThen app]. split; [done|].
  split; [done|]. intros Hempty. rewrite Hempty in Hids.
  rewrite (searchCards_empty_term _ [] Htext) in Hids. by injection Hids.
Qed.

Lemma searchInput_matches_witness :
  (searchCache sampleStateWithText !! trim (toLowerCase (str " Fan")) = None
   ∧ inheritedProperty (trim (toLowerCase (str " Fan"))) = false)
  ∧ ∃ ids,
      searchInput (str " Fan") sampleStateWithText
      = Returns (set_searchCache
                   (<[trim (toLowerCase (str " Fan")) := ids]>
                      (searchCache sampleStateWithText))
                   sampleStateWithText, ids)
      ∧ (str "p1" ∈ ids ↔
           ∃ card text, card ∈ promptCards sampleStateWithText
             ∧ card_id card = str "p1"
             ∧ card_prompt_text card = Some text
             ∧ (includes (toLowerCase (card_title_text card))
                         (trim (toLowerCase (str " Fan"))) = true
                ∨ includes (toLowerCase text)
                           (trim (toLowerCase (str " Fan"))) = true
                ∨ ∃ tag, tag ∈ card_tags card
                         ∧ includes (toLowerCase tag)
                                    (trim (toLowerCase (str " Fan"))) = true)).
Proof.
  split; [by vm_compute|].
  destruct (searchInput_matches (str " Fan") sampleStateWithText)
    as (ids & Hids & Hspec & _).
  - by vm_compute.
  - by vm_compute.
  - intros card Hcard. change (promptCards sampleStateWithText)
      with (cardWithText <$> [samplePrompt1; samplePrompt2]) in Hcard.
    by apply list_elem_of_fmap in Hcard as (prompt & -> & _).
  - exists ids. split; [exact Hids|apply Hspec].
Defined.

(** C7 fails on the code.  With the two sample prompts on the page, the
    search for "fan" ends in a [TypeError] and yields no ids, although the
    title of the first prompt contains the term, and so does the search
    for the empty term.  Even on a page whose cards carry their text, the
    search for "midjourney" returns no id, although the notes of the first
    prompt contain the term. *)
Theorem searchInput_sample_throws :
  promptCards sampleState = createPromptCard <$> [samplePrompt1; samplePrompt2]
  ∧ includes (toLowerCase (p_title samplePrompt1)) (str "fan") = true
  ∧ searchInput (str "fan") sampleState = Throws TypeError
  ∧ searchInput [] sampleState = Throws TypeError
  ∧ includes (toLowerCase (p_notes samplePrompt1)) (str "midjourney") = true
  ∧ ∃ s', searchInput (str "midjourney") sampleStateWithText
          = Returns (s', []).
Proof.
  repeat split; try by vm_compute.
  eexists. by vm_compute.
Qed.

(** The filter of the second script does what C7 says: it keeps the
    records with the query in the lower-cased title, text, some tag or
    notes, and every record for the empty query. *)
Lemma getFilteredPrompts_search (searchQuery : jsstring)
    (prompts : list Prompt) (prompt : Prompt) :
  prompt ∈ V21.getFilteredPrompts searchQuery prompts ↔
  prompt ∈ prompts
  ∧ (searchQuery = []
     ∨ includes (toLowerCase (p_title prompt)) searchQuery = true
     ∨ includes (toLowerCase (p_text prompt)) searchQuery = true
     ∨ (∃ tag, tag ∈ p_tags prompt
               ∧ includes (toLowerCase tag) searchQuery = true)
     ∨ includes (toLowerCase (p_notes prompt)) searchQuery = true).
Proof.
  unfold V21.getFilteredPrompts.
  destruct (decide (searchQuery = [])) as [->|Hq].
  - rewrite bool_decide_eq_false_2 by (by intros ?). tauto.
  - rewrite bool_decide_eq_true_2 by done.
    rewrite list_elem_of_filter. unfold V21.matchesQuery.
    rewrite !orb_true_iff, andb_true_iff, bool_decide_eq_true.
    rewrite existsb_exists.
    assert (Hnotes : includes (toLowerCase (p_notes prompt)) searchQuery = true
                     → p_notes prompt ≠ []).
    { intros Hin Hnil. rewrite Hnil in Hin. cbn in Hin.
      destruct searchQuery; [done|discriminate]. }
    split.
    + intros [[[[H|H]|(tag & Htag & H)]|[_ H]] Hin]; split; try done.
      * right; by left.
      * right; right; by left.
      * right; right; right; left. exists tag.
        split; [by apply list_elem_of_In|done].
      * by do 4 right.
    + intros [Hin [?|[H|[H|[(tag & Htag & H)|H]]]]]; [done|..];
        split; try done.
      * by do 3 left.
      * left; left; by right.
      * left; right. exists tag. split; [by apply list_elem_of_In|done].
      * right. split; [by apply Hnotes|done].
Qed.

(** A cached term is answered from the cache, whatever the page shows;
    the key is the lower-cased, trimmed value of the field. *)
Lemma searchInput_cached (value : jsstring) (cached : list jsstring)
    (s : State) :
  searchCache s !! trim (toLowerCase value) = Some cached →
  searchInput value s = Returns (s, cached).
Proof. intros Hhit. unfold searchInput. by rewrite Hhit. Qed.

(** C8 fails on the code: [undo], [redo] and the import leave the search
    cache as it is.  After a creation and [undo], the search for "Fan" on
    the empty page caches the empty result; [redo] brings the record
    "Fantasy Landscape" back and the same search is answered from the
    cache with the empty result. *)
Theorem undo_redo_keep_searchCache :
  (∀ s, searchCache (undo s) = searchCache s)
  ∧ (∀ s, searchCache (redo s) = searchCache s)
  ∧ (∀ gen now importedPrompts s,
       searchCache (confirmOk gen now (handleFileImport importedPrompts s))
       = searchCache s)
  ∧ (let s1 := savePrompt (str "n1") [] sampleForm emptyState in
     let s2 := undo s1 in
     let s3 := set_searchCache (<[str "fan" := []]> ∅) s2 in
     let s4 := redo s3 in
     prompts s2 = [] ∧ searchCache s2 = ∅
     ∧ searchInput (str "Fan") s2 = Returns (s3, [])
     ∧ p_title <$> prompts s4 = [str "Fantasy Landscape"]
     ∧ card_title_text <$> promptCards s4 = [str "Fantasy Landscape"]
     ∧ searchInput (str "Fan") s4 = Returns (s4, [])).
Proof.
  split; [|split; [|split]].
  - intros s. unfold undo. by destruct (last (undoStack s)).
  - intros s. unfold redo. by destruct (last (redoStack s)).
  - done.
  - by vm_compute.
Qed.

(** ** Share link *)

Lemma btoa_throws (s : jsstring) (c : N) :
  c ∈ s → (255 < c)%N → btoa s = Throws InvalidCharacterError.
Proof.
  intros Hc Hbig. unfold btoa.
  destruct (forallb _ s) eqn:Hall; [|done].
  rewrite forallb_forall in Hall.
  specialize (Hall c (proj1 (list_elem_of_In _ _) Hc)).
  apply N.leb_le in Hall. lia.
Qed.

(** A code unit above 255 that is no surrogate stands for itself in the
    JSON text. *)
Lemma quoteUnits_keeps (c : N) (s : jsstring) :
  (255 < c)%N → isHighSurrogate c = false → isLowSurrogate c = false →
  c ∈ s → c ∈ quoteUnits s.
Proof.
  intros Hbig Hhigh Hlow.
  remember (length s) as n eqn:Hn. revert s Hn.
  induction n as [n IH] using lt_wf_ind. intros s Hn Hin.
  destruct s as [|d s]; [done|]. cbn [quoteUnits].
  assert (Hrec : ∀ pre, c ∈ d :: s → d ≠ c → c ∈ pre ++ quoteUnits s).
  { intros pre [?|Hs]%elem_of_cons Hdc; [done|].
    apply elem_of_app. right. apply (IH (length s)); [simpl in Hn; lia|done..]. }
  destruct (decide (d = c)) as [->|Hdc].
  - repeat (destruct (decide _) as [?|_]; [lia|]).
    destruct (c <? 32)%N eqn:H32; [apply N.ltb_lt in H32; lia|].
    rewrite Hhigh, Hlow. apply elem_of_cons. by left.
  - repeat (destruct (decide _); [by apply Hrec|]).
    destruct (d <? 32)%N; [by apply Hrec|].
    destruct (isHighSurrogate d).
    + destruct s as [|e s];
        [apply list_elem_of_singleton in Hin; congruence|].
      destruct (isLowSurrogate e) eqn:He; [|by apply Hrec].
      apply elem_of_cons in Hin as [?|Hin]; [done|].
      apply elem_of_cons in Hin as [->|Hin]; [congruence|].
      do 2 (apply elem_of_cons; right).
      apply (IH (length s)); [simpl in Hn; lia|done..].
    + destruct (isLowSurrogate d); [by apply Hrec|].
      apply (Hrec [d]); done.
Qed.

(** No link is made for a prompt whose title has such a code unit. *)
Lemma stringifyShareData_throws (prompt : Prompt) (c : N) :
  c ∈ p_title prompt →
  (255 < c)%N → isHighSurrogate c = false → isLowSurrogate c = false →
  btoa (stringifyShareData prompt) = Throws InvalidCharacterError.
Proof.
  intros Hc Hbig Hhigh Hlow. apply (btoa_throws _ c); [|done].
  unfold stringifyShareData, JSON_string.
  do 5 (apply elem_of_app; right). apply elem_of_app; left.
  apply elem_of_app; right. apply elem_of_app; left.
  by apply quoteUnits_keeps.
Qed.

(** C9 fails on the code: for the prompt whose title starts with a star
    (U+2B50), [sharePrompt] ends in the [InvalidCharacterError] of [btoa]
    and makes no token to decode; the first sample prompt, all ASCII, gets
    one. *)
Theorem sharePrompt_star_throws :
  let s := pageWith [starredPrompt] sampleCategoryList sampleOptions in
  p_id <$> prompts s = [str "p3"]
  ∧ head (p_title starredPrompt) = Some 11088%N
  ∧ sharePrompt (str "p3") s = Throws InvalidCharacterError
  ∧ ∃ token, sharePrompt (str "p1") sampleState = Returns (Some token).
Proof.
  repeat split; try by vm_compute.
  eexists. by vm_compute.
Qed.

(** * Further properties of the script *)

(** ** The edit distance as a recurrence *)

Lemma lev_nil_r (xs : jsstring) : lev xs [] = length xs.
Proof. by destruct xs. Qed.

Lemma lev_cons_cons (x y : N) (xs ys : jsstring) :
  lev (x :: xs) (y :: ys)
  = if decide ([x] ≠ [y])
    then S ((lev xs ys `min` lev (x :: xs) ys) `min` lev xs (y :: ys))
    else lev xs ys.
Proof. reflexivity. Qed.

Lemma lev_sym (xs : jsstring) : ∀ ys, lev xs ys = lev ys xs.
Proof.
  induction xs as [|x xs IHx]; intros ys.
  - by rewrite lev_nil_r.
  - induction ys as [|y ys IHy]; [done|].
    rewrite !lev_cons_cons, (IHx ys), IHy, (IHx (y :: ys)).
    destruct (decide ([x] ≠ [y])) as [Hne|Heq];
      destruct (decide ([y] ≠ [x])) as [Hne'|Heq']; try congruence.
    + f_equal. lia.
    + exfalso. apply Hne. apply dec_stable in Heq'. congruence.
    + exfalso. apply Hne'. apply dec_stable in Heq. congruence.
Qed.

Lemma lev_zero (xs : jsstring) : ∀ ys, lev xs ys = 0 ↔ xs = ys.
Proof.
  induction xs as [|x xs IHx]; intros ys.
  - cbn. destruct ys; [done|]. by split.
  - destruct ys as [|y ys]; [done|]. rewrite lev_cons_cons.
    destruct (decide ([x] ≠ [y])) as [Hne|Heq].
    + split; [done|]. intros [= -> ->]. done.
    + apply dec_stable in Heq. injection Heq as ->. rewrite IHx.
      split; [by intros ->|by intros [= ->]].
Qed.

(** The distance is at least the difference of the lengths. *)
Lemma lev_lower (xs : jsstring) :
  ∀ ys, length xs - length ys ≤ lev xs ys
        ∧ length ys - length xs ≤ lev xs ys.
Proof.
  induction xs as [|x xs IHx]; intros ys.
  - cbn. lia.
  - induction ys as [|y ys IHy]; [cbn; lia|].
    rewrite lev_cons_cons. cbn [length].
    pose proof (IHx ys). pose proof (IHx (y :: ys)) as H2. cbn [length] in H2.
    cbn [length] in IHy.
    destruct (decide ([x] ≠ [y])); lia.
Qed.

Lemma reverse_take_S (s : jsstring) (i : nat) (x : N) :
  s !! i = Some x → reverse (take (S i) s) = x :: reverse (take i s).
Proof. intros Hi. by rewrite (take_S_r _ _ _ Hi), reverse_snoc. Qed.

Lemma rowTail_levAt (s1 s2 : jsstring) (i : nat) (x : N) (m : nat) :
  s1 !! i = Some x →
  ∀ k, k + m = length s2 →
    rowTail [x] (levAt s1 s2 i k) (levAt s1 s2 (S i) k)
            (levAt s1 s2 i <$> seq (S k) m) (drop k s2)
    = levAt s1 s2 (S i) <$> seq (S k) m.
Proof.
  intros Hx. induction m as [|m IH]; intros k Hk; [done|].
  destruct (lookup_lt_is_Some_2 s2 k) as [y Hy]; [lia|].
  rewrite (drop_S _ _ _ Hy). cbn [seq fmap list_fmap rowTail].
  assert (Hstep : levAt s1 s2 (S i) (S k)
    = if decide ([x] ≠ [y])
      then S ((levAt s1 s2 i k `min` levAt s1 s2 (S i) k)
              `min` levAt s1 s2 i (S k))
      else levAt s1 s2 i k).
  { unfold levAt. rewrite (reverse_take_S s1 i x Hx),
      (reverse_take_S s2 k y Hy). apply lev_cons_cons. }
  rewrite <- Hstep. f_equal. apply (IH (S k)). lia.
Qed.

Lemma tableRow_levAt (s1 s2 : jsstring) (i : nat) :
  i ≤ length s1 →
  tableRow s1 s2 i = levAt s1 s2 i <$> seq 0 (S (length s2)).
Proof.
  induction i as [|i IH]; intros Hi.
  - cbn [tableRow]. apply list_eq. intros j.
    rewrite list_lookup_fmap. destruct (decide (j < S (length s2))) as [Hj|Hj].
    + rewrite lookup_seq_lt by done. cbn. unfold levAt.
      rewrite take_0, reverse_nil. cbn [lev].
      rewrite length_reverse, length_take. f_equal. lia.
    + by rewrite lookup_seq_ge by lia.
  - destruct (lookup_lt_is_Some_2 s1 i) as [x Hx]; [lia|].
    cbn [tableRow]. rewrite IH by lia. cbn [seq fmap list_fmap nextRow].
    unfold charAt. rewrite Hx.
    assert (H0 : levAt s1 s2 (S i) 0 = S i).
    { unfold levAt. cbn. rewrite lev_nil_r, length_reverse, length_take. lia. }
    pose proof (rowTail_levAt s1 s2 i x (length s2) Hx 0 eq_refl) as Hrow.
    rewrite H0, drop_0 in Hrow. by rewrite Hrow, H0.
Qed.

(** [getEditDistance] computes the recurrence on the two strings. *)
Lemma getEditDistance_lev (s1 s2 : jsstring) :
  getEditDistance s1 s2 = Some (lev (reverse s1) (reverse s2)).
Proof.
  rewrite getEditDistance_table, tableRow_levAt by done.
  rewrite list_lookup_fmap, lookup_seq_lt by lia. cbn.
  unfold levAt. by rewrite !firstn_all.
Qed.

(** The similarity of two strings through the distance [d] of the longer
    to the shorter one: [d] lies between the difference of the lengths and
    the greater length, and is 0 for equal strings only. *)
Lemma calculateSimilarity_distance (a b : jsstring) :
  ∃ d, d ≤ length a `max` length b
    ∧ length a `max` length b - length a `min` length b ≤ d
    ∧ (d = 0 ↔ a = b)
    ∧ calculateSimilarity a b
      = Some (if decide (length a `max` length b = 0) then 1%Q
              else ((Z.of_nat (length a `max` length b) - Z.of_nat d)
                    # Pos.of_nat (length a `max` length b))%Q).
Proof.
  unfold calculateSimilarity.
  destruct (decide (length b < length a)) as [Hlt|Hge].
  - replace (length a `max` length b) with (length a) by lia.
    replace (length a `min` length b) with (length b) by lia.
    exists (lev (reverse a) (reverse b)).
    pose proof (lev_lower (reverse a) (reverse b)) as Hlow.
    destruct (getEditDistance_bound a b) as (d' & Hd' & Hup).
    rewrite getEditDistance_lev in Hd'. injection Hd' as <-.
    rewrite !length_reverse in Hlow. rewrite getEditDistance_lev.
    split; [lia|]. split; [lia|]. split.
    + rewrite lev_zero. split; [by intros ?%(inj reverse)|by intros ->].
    + by destruct (decide (length a = 0)).
  - replace (length a `max` length b) with (length b) by lia.
    replace (length a `min` length b) with (length a) by lia.
    exists (lev (reverse b) (reverse a)).
    pose proof (lev_lower (reverse b) (reverse a)) as Hlow.
    destruct (getEditDistance_bound b a) as (d' & Hd' & Hup).
    rewrite getEditDistance_lev in Hd'. injection Hd' as <-.
    rewrite !length_reverse in Hlow. rewrite getEditDistance_lev.
    split; [lia|]. split; [lia|]. split.
    + rewrite lev_zero. split; [by intros ?%(inj reverse)|by intros ->].
    + by destruct (decide (length b = 0)).
Qed.

Lemma calculateSimilarity_equal (a b : jsstring) :
  a = b → ∃ q, calculateSimilarity a b = Some q ∧ (q == 1)%Q.
Proof.
  intros Hab.
  destruct (calculateSimilarity_distance a b) as (d & _ & _ & Hzero & ->).
  apply Hzero in Hab as ->. eexists; split; [done|].
  destruct (decide (length a `max` length b = 0)) as [H0|Hn]; [done|].
  unfold Qeq. cbn [Qnum Qden]. rewrite Zpos_of_nat by done. lia.
Qed.

(** X1: the edit distance and the similarity do not depend on the order of
    the two strings. *)
Theorem calculateSimilarity_sym (a b : jsstring) :
  getEditDistance a b = getEditDistance b a
  ∧ calculateSimilarity a b = calculateSimilarity b a.
Proof.
  assert (Hsym : getEditDistance a b = getEditDistance b a).
  { by rewrite !getEditDistance_lev, lev_sym. }
  split; [done|]. unfold calculateSimilarity.
  destruct (decide (length b < length a)) as [Hba|Hba];
    destruct (decide (length a < length b)) as [Hab|Hab]; try done; [lia|].
  assert (Hlen : length a = length b) by lia.
  by rewrite Hsym, Hlen.
Qed.

(** X2: the similarity is 1 for equal strings and for no others. *)
Theorem calculateSimilarity_one_iff (a b : jsstring) :
  (∃ q, calculateSimilarity a b = Some q ∧ (q == 1)%Q) ↔ a = b.
Proof.
  destruct (calculateSimilarity_distance a b) as (d & Hup & _ & Hzero & ->).
  destruct (decide (length a `max` length b = 0)) as [H0|Hn].
  - assert (a = b) as Hab.
    { destruct a, b; simpl in H0; try lia. done. }
    split; [done|]. intros _. by exists 1%Q.
  - rewrite <- Hzero. split.
    + intros (q & [= <-] & Hq). unfold Qeq in Hq. cbn [Qnum Qden] in Hq.
      rewrite Zpos_of_nat in Hq by done. lia.
    + intros ->. eexists; split; [done|].
      unfold Qeq. cbn [Qnum Qden]. rewrite Zpos_of_nat by done. lia.
Qed.

(** X3: the similarity is at most the length of the shorter string over
    the length of the longer one; against the empty string it is 0. *)
Theorem calculateSimilarity_length_ratio :
  (∀ a b : jsstring,
     ∃ q, calculateSimilarity a b = Some q
       ∧ (q * inject_Z (Z.of_nat (length a `max` length b))
          <= inject_Z (Z.of_nat (length a `min` length b)))%Q)
  ∧ (∀ (c : N) (a : jsstring),
       ∃ q, calculateSimilarity (c :: a) [] = Some q ∧ (q == 0)%Q).
Proof.
  split.
  - intros a b.
    destruct (calculateSimilarity_distance a b) as (d & Hup & Hlow & _ & ->).
    eexists; split; [done|].
    destruct (decide (length a `max` length b = 0)) as [H0|Hn].
    + rewrite H0. unfold Qle. cbn. lia.
    + unfold Qle, Qmult, inject_Z. cbn [Qnum Qden].
      rewrite Pos.mul_1_r, Zpos_of_nat by done. nia.
  - intros c a.
    destruct (calculateSimilarity_distance (c :: a) [])
      as (d & Hup & Hlow & _ & ->).
    cbn [length] in *. rewrite Nat.max_0_r, Nat.min_0_r in *.
    destruct (decide (S (length a) = 0)) as [|_]; [done|].
    eexists; split; [done|]. unfold Qeq. cbn [Qnum Qden]. lia.
Qed.

(** ** Duplicate detector *)

Lemma Math_round_percent (q : Q) :
  (7 # 10 < q)%Q → (q <= 1)%Q → (70 ≤ Math_round (q * 100) ≤ 100)%Z.
Proof.
  intros Hlow Hup. unfold Math_round. split.
  - change 70%Z with (Qfloor (inject_Z 70)). apply Qfloor_resp_le.
    unfold inject_Z. lra.
  - assert (H : (Qfloor (q * 100 + (1 # 2)) ≤ Qfloor (201 # 2))%Z)
      by (apply Qfloor_resp_le; lra).
    exact H.
Qed.

Lemma findDuplicatePrompts_elem (prompts : list Prompt) (d : Duplicate) :
  d ∈ findDuplicatePrompts prompts ↔
  ∃ i j, i < j < length prompts ∧ d ∈ duplicateOf prompts i j.
Proof.
  rewrite findDuplicatePrompts_bind, list_elem_of_bind. split.
  - intros (i & Hd & Hi). apply list_elem_of_bind in Hd as (j & Hd & Hj).
    apply elem_of_seq in Hi, Hj. exists i, j. split; [lia|done].
  - intros (i & j & Hij & Hd). exists i. split; [|apply elem_of_seq; lia].
    apply list_elem_of_bind. exists j. split; [done|apply elem_of_seq; lia].
Qed.

(** X4: two records with the same text are always reported, with the
    similarity 100; the text may be empty. *)
Theorem findDuplicatePrompts_same_text (prompts : list Prompt) (i j : nat)
    (pi pj : Prompt) :
  i < j → prompts !! i = Some pi → prompts !! j = Some pj →
  p_text pi = p_text pj →
  mkDuplicate pi pj 100 ∈ findDuplicatePrompts prompts.
Proof.
  intros Hij Hi Hj Htext. apply findDuplicatePrompts_elem.
  exists i, j. split; [split; [done|by eapply lookup_lt_Some]|].
  apply duplicateOf_spec.
  destruct (calculateSimilarity_equal (p_text pi) (p_text pj) Htext)
    as (q & Hq & Hone).
  exists pi, pj, q. repeat split; try done.
  - rewrite Hone. reflexivity.
  - f_equal. unfold Math_round. by rewrite Hone.
Qed.

Lemma findDuplicatePrompts_same_text_witness :
  (0 < 1 ∧ p_text (artPrompt "a1" "art") = p_text (artPrompt "c1" "code"))
  ∧ mkDuplicate (artPrompt "a1" "art") (artPrompt "c1" "code") 100
    ∈ findDuplicatePrompts [artPrompt "a1" "art"; artPrompt "c1" "code"].
Proof.
  split; [split; [lia|reflexivity]|].
  apply (findDuplicatePrompts_same_text _ 0 1); [lia|reflexivity..].
Defined.

(** X5: every reported pair carries a similarity between 70 and 100, and
    its two texts have comparable lengths: unless both are empty, seven
    times the longer is less than ten times the shorter. *)
Theorem findDuplicatePrompts_reported (prompts : list Prompt)
    (d : Duplicate) :
  d ∈ findDuplicatePrompts prompts →
  (70 ≤ similarity d ≤ 100)%Z
  ∧ (7 * (length (p_text (prompt1 d)) `max` length (p_text (prompt2 d)))
     < 10 * (length (p_text (prompt1 d)) `min` length (p_text (prompt2 d)))
     ∨ (p_text (prompt1 d) = [] ∧ p_text (prompt2 d) = [])).
Proof.
  intros (i & j & _ & Hd)%findDuplicatePrompts_elem.
  apply duplicateOf_spec in Hd as (pi & pj & q & _ & _ & Hq & Hlow & ->).
  cbn [similarity prompt1 prompt2].
  destruct (calculateSimilarity_distance (p_text pi) (p_text pj))
    as (dist & Hup & Hdiff & _ & Hsim).
  rewrite Hq in Hsim. injection Hsim as ->.
  set (n := length (p_text pi) `max` length (p_text pj)) in *.
  set (m := length (p_text pi) `min` length (p_text pj)) in *.
  destruct (decide (n = 0)) as [H0|Hn].
  - split; [by apply Math_round_percent|]. right. subst n.
    destruct (p_text pi), (p_text pj); simpl in H0; try lia. done.
  - split.
    + apply Math_round_percent; [done|].
      unfold Qle. cbn [Qnum Qden]. rewrite Zpos_of_nat by done. lia.
    + left. unfold Qlt in Hlow. cbn [Qnum Qden] in Hlow.
      rewrite Zpos_of_nat in Hlow by done. lia.
Qed.

Lemma findDuplicatePrompts_reported_witness :
  mkDuplicate (artPrompt "a1" "art") (artPrompt "c1" "code") 100
  ∈ findDuplicatePrompts [artPrompt "a1" "art"; artPrompt "c1" "code"]
  ∧ (70 ≤ 100 ≤ 100)%Z.
Proof.
  assert (Hin : mkDuplicate (artPrompt "a1" "art") (artPrompt "c1" "code") 100
                ∈ findDuplicatePrompts
                    [artPrompt "a1" "art"; artPrompt "c1" "code"]).
  { apply (list_elem_of_lookup_2 _ 0). by vm_compute. }
  split; [exact Hin|].
  exact (proj1 (findDuplicatePrompts_reported _ _ Hin)).
Defined.

(** ** Text utilities and metrics *)

Lemma trimStart_white (pad s : jsstring) :
  Forall (λ c, isWhiteSpace c = true) pad → trimStart (pad ++ s) = trimStart s.
Proof.
  induction 1 as [|c pad Hc _ IH]; [done|].
  simpl. by rewrite Hc.
Qed.

Lemma trimStart_blank (pad : jsstring) :
  Forall (λ c, isWhiteSpace c = true) pad → trimStart pad = [].
Proof.
  intros H. rewrite <- (app_nil_r pad). by rewrite trimStart_white.
Qed.

Lemma trimStart_reverse_word (l : jsstring) (c : N) :
  last l = Some c → isWhiteSpace c = false →
  trimStart (reverse l) = reverse l.
Proof.
  destruct l as [|x l _] using rev_ind; [done|].
  rewrite last_snoc. intros [= ->] Hc.
  rewrite reverse_snoc. simpl. by rewrite Hc.
Qed.

Lemma trim_padded (pad1 body pad2 : jsstring) (c d : N) :
  Forall (λ c, isWhiteSpace c = true) pad1 →
  Forall (λ c, isWhiteSpace c = true) pad2 →
  head body = Some c → isWhiteSpace c = false →
  last body = Some d → isWhiteSpace d = false →
  trim (pad1 ++ body ++ pad2) = body.
Proof.
  intros H1 H2 Hc Hcw Hd Hdw. unfold trim.
  rewrite trimStart_white by done.
  destruct body as [|c' body]; [done|]. injection Hc as ->.
  simpl. rewrite Hcw.
  change (c :: body ++ pad2) with ((c :: body) ++ pad2).
  rewrite reverse_app, trimStart_white by by apply Forall_reverse.
  rewrite (trimStart_reverse_word _ d) by done.
  by rewrite reverse_involutive.
Qed.

Lemma splitWhiteSpace_cons (s : jsstring) :
  ∃ w ws, splitWhiteSpace s = w :: ws.
Proof.
  induction s as [|c s IH]; [by eexists _, _|].
  simpl. destruct (isWhiteSpace c).
  - destruct s as [|c' s]; [by eexists _, _|].
    destruct (isWhiteSpace c'); [done|by eexists _, _].
  - destruct IH as (w & ws & ->). by eexists _, _.
Qed.

Lemma splitWhiteSpace_word (w t : jsstring) :
  Forall (λ c, isWhiteSpace c = false) w →
  splitWhiteSpace (w ++ t) =
  match splitWhiteSpace t with
  | h :: tl => (w ++ h) :: tl
  | [] => [w]
  end.
Proof.
  induction 1 as [|c w Hc _ IH]; simpl.
  - by destruct (splitWhiteSpace_cons t) as (h & tl & ->).
  - rewrite Hc, IH. by destruct (splitWhiteSpace_cons t) as (h & tl & ->).
Qed.

Lemma splitWhiteSpace_separator (sep t : jsstring) (c : N) :
  sep ≠ [] → Forall (λ c, isWhiteSpace c = true) sep →
  head t = Some c → isWhiteSpace c = false →
  splitWhiteSpace (sep ++ t) = [] :: splitWhiteSpace t.
Proof.
  intros Hne Hsep Hc Hcw. destruct t as [|c' t]; [done|]. injection Hc as ->.
  induction Hsep as [|x sep Hx Hsep IH]; [done|].
  destruct sep as [|y sep].
  - simpl. by rewrite Hx, Hcw.
  - change (splitWhiteSpace ((x :: y :: sep) ++ c :: t))
      with (if isWhiteSpace x
            then if isWhiteSpace y
                 then splitWhiteSpace ((y :: sep) ++ c :: t)
                 else [] :: splitWhiteSpace ((y :: sep) ++ c :: t)
            else match splitWhiteSpace ((y :: sep) ++ c :: t) with
                 | w :: ws => (x :: w) :: ws
                 | [] => [[x]]
                 end).
    rewrite Hx. inversion Hsep as [|? ? Hy _]; subst. rewrite Hy.
    by apply IH.
Qed.

(** The body of a laid out text: what it starts with, what it ends with
    and how [split] cuts it. *)
Lemma layout_body (rest : list (jsstring * jsstring)) :
  ∀ w : jsstring,
  w ≠ [] → Forall (λ c, isWhiteSpace c = false) w →
  Forall (λ sw : jsstring * jsstring,
            sw.1 ≠ [] ∧ Forall (λ c, isWhiteSpace c = true) sw.1
            ∧ sw.2 ≠ [] ∧ Forall (λ c, isWhiteSpace c = false) sw.2) rest →
  let body := w ++ (rest ≫= λ sw, sw.1 ++ sw.2) in
  (∃ c, head body = Some c ∧ isWhiteSpace c = false)
  ∧ (∃ d, last body = Some d ∧ isWhiteSpace d = false)
  ∧ splitWhiteSpace body = w :: rest.*2.
Proof.
  induction rest as [|[sep w'] rest IH]; intros w Hne Hw Hrest body.
  - subst body. simpl. rewrite app_nil_r. split_and!.
    + destruct w as [|c w]; [done|]. exists c. split; [done|].
      by inversion Hw.
    + destruct w as [|d w _] using rev_ind; [done|]. exists d.
      rewrite last_snoc. split; [done|].
      apply Forall_app in Hw as [_ Hd]. by inversion Hd.
    + rewrite <- (app_nil_r w) at 1. rewrite splitWhiteSpace_word by done.
      simpl. by rewrite app_nil_r.
  - inversion Hrest as [|? ? (Hs & Hsw & Hw'ne & Hw') Hrest']; subst.
    destruct (IH w' Hw'ne Hw' Hrest') as ((c' & Hc' & Hc'w) & Hlast & Hsplit).
    subst body. rewrite bind_cons, fmap_cons. cbn [fst snd]. split_and!.
    + destruct w as [|c w]; [done|]. exists c. split; [done|].
      by inversion Hw.
    + destruct Hlast as (d & Hd & Hdw). exists d. split; [|done].
      rewrite <- (assoc_L (++) sep), (assoc_L (++) w).
      rewrite last_app, Hd. done.
    + rewrite <- (assoc_L (++) sep).
      rewrite splitWhiteSpace_word by done.
      rewrite (splitWhiteSpace_separator _ _ c') by done.
      rewrite Hsplit. by rewrite app_nil_r.
Qed.

Lemma calculateWordCount_positive (text : jsstring) :
  1 ≤ calculateWordCount text.
Proof.
  unfold calculateWordCount.
  destruct (splitWhiteSpace_cons (trim text)) as (w & ws & ->). simpl. lia.
Qed.

(** X6: a text without any word (empty, or white space only) is counted as
    one word by [calculateWordCount]. *)
Theorem calculateWordCount_blank (text : jsstring) :
  Forall (λ c, isWhiteSpace c = true) text →
  calculateWordCount text = 1.
Proof.
  intros H. unfold calculateWordCount, trim.
  by rewrite (trimStart_blank text).
Qed.

Lemma calculateWordCount_blank_witness :
  calculateWordCount (str "  ") = 1.
Proof.
  apply calculateWordCount_blank. by repeat constructor.
Defined.

(** X7: on a text made of n words (non-empty, without white space), any two
    neighbours separated by a non-empty run of white space, with any white
    space before the first and after the last, [calculateWordCount] returns
    n, and the pieces it counts are the words. *)
Theorem calculateWordCount_layout (pad1 w : jsstring)
    (rest : list (jsstring * jsstring)) (pad2 : jsstring) :
  Forall (λ c, isWhiteSpace c = true) pad1 →
  Forall (λ c, isWhiteSpace c = true) pad2 →
  w ≠ [] → Forall (λ c, isWhiteSpace c = false) w →
  Forall (λ sw : jsstring * jsstring,
            sw.1 ≠ [] ∧ Forall (λ c, isWhiteSpace c = true) sw.1
            ∧ sw.2 ≠ [] ∧ Forall (λ c, isWhiteSpace c = false) sw.2) rest →
  splitWhiteSpace (trim (layout pad1 w rest pad2)) = w :: rest.*2
  ∧ calculateWordCount (layout pad1 w rest pad2) = S (length rest).
Proof.
  intros H1 H2 Hne Hw Hrest.
  destruct (layout_body rest w Hne Hw Hrest)
    as ((c & Hc & Hcw) & (d & Hd & Hdw) & Hsplit).
  assert (trim (layout pad1 w rest pad2)
          = w ++ (rest ≫= λ sw, sw.1 ++ sw.2)) as Htrim.
  { unfold layout. rewrite (assoc_L (++) w). by eapply trim_padded. }
  unfold calculateWordCount. rewrite Htrim, Hsplit.
  split; [done|]. simpl. by rewrite length_fmap.
Qed.

Lemma calculateWordCount_layout_witness :
  splitWhiteSpace (trim (str " a cat  sat ")) = [str "a"; str "cat"; str "sat"]
  ∧ calculateWordCount (str " a cat  sat ") = 3.
Proof.
  apply (calculateWordCount_layout (str " ") (str "a")
           [(str " ", str "cat"); (str "  ", str "sat")] (str " "));
    try done; repeat constructor; done.
Defined.

(** X8: [estimateTokenCount] is the number of units divided by four and
    rounded up: the least integer t with length ≤ 4 t. *)
Theorem estimateTokenCount_spec (text : jsstring) :
  let n := Z.of_nat (length text) in
  estimateTokenCount text = ((n + 3) / 4)%Z
  ∧ (n ≤ 4 * estimateTokenCount text < n + 4)%Z.
Proof.
  intros n. unfold estimateTokenCount, Math_ceil, Qceiling, Qfloor, Qopp.
  fold n. cbn [Qnum Qden].
  pose proof (Z.div_mod (- n) 4 ltac:(done)).
  pose proof (Z.mod_pos_bound (- n) 4 ltac:(done)).
  pose proof (Z.div_mod (n + 3) 4 ltac:(done)).
  pose proof (Z.mod_pos_bound (n + 3) 4 ltac:(done)).
  lia.
Qed.

Lemma getComplexityLabel_inv (c : nat) :
  (getComplexityLabel c = str "Simple" ↔ c ≤ 1)
  ∧ (getComplexityLabel c = str "Basic" ↔ c = 2)
  ∧ (getComplexityLabel c = str "Very Complex" ↔ 4 < c).
Proof.
  unfold getComplexityLabel.
  repeat case_decide;
    (split_and!; (split; [intros Heq; vm_compute in Heq; (done || lia)
                         |intros ?; (done || lia)])).
Qed.

(** X9: [calculateComplexity] is between 1 and 5.  Its label is "Simple"
    exactly when none of its criteria holds (at most 100 words, notes of at
    most 50 units, no result image, fewer than 3 tags); a text of at most
    100 words is never "Very Complex", and a text over 200 words is at least
    "Moderate". *)
Theorem calculateComplexity_spec (prompt : Prompt) :
  let c := calculateComplexity prompt in
  1 ≤ c ≤ 5
  ∧ (getComplexityLabel c = str "Simple"
     ↔ calculateWordCount (p_text prompt) ≤ 100
       ∧ length (p_notes prompt) ≤ 50
       ∧ p_resultImages prompt = []
       ∧ length (p_tags prompt) < 3)
  ∧ (getComplexityLabel c = str "Very Complex"
     → 100 < calculateWordCount (p_text prompt))
  ∧ (200 < calculateWordCount (p_text prompt)
     → 3 ≤ c ∧ getComplexityLabel c ≠ str "Simple"
       ∧ getComplexityLabel c ≠ str "Basic").
Proof.
  intros c.
  destruct (getComplexityLabel_inv c) as (-> & -> & ->).
  subst c. unfold calculateComplexity.
  assert (p_resultImages prompt = [] ↔ ¬ 0 < length (p_resultImages prompt))
    as Himg by (destruct (p_resultImages prompt); simpl; split; (done || lia)).
  rewrite Himg.
  repeat case_bool_decide; repeat case_decide; lia.
Qed.

(** X10: [truncateText] keeps the first [maxLength] units of the text and
    never returns more than [maxLength + 3] units; a text over [maxLength]
    comes out with exactly [maxLength + 3] units, so a text of
    [maxLength + 1] or [maxLength + 2] units gets longer. *)
Theorem truncateText_spec (text : jsstring) (maxLength : nat) :
  take maxLength (truncateText text maxLength) = take maxLength text
  ∧ length (truncateText text maxLength) ≤ maxLength + 3
  ∧ (length (truncateText text maxLength) =
     if decide (length text ≤ maxLength) then length text else maxLength + 3).
Proof.
  unfold truncateText. case_decide as Hlen.
  - split_and!; [done|lia|done].
  - assert (length (take maxLength text) = maxLength) as Htake
      by (rewrite length_take; lia).
    split_and!.
    + rewrite take_app_le by lia. rewrite take_take. f_equal. lia.
    + rewrite length_app, Htake. by vm_compute.
    + rewrite length_app, Htake. done.
Qed.

(** ** History *)

Lemma last_removelast {A} (l : list A) (x : A) :
  last l = Some x → removelast l ++ [x] = l.
Proof.
  destruct l as [|y l _] using rev_ind; [done|].
  rewrite last_snoc. intros [= ->].
  by rewrite removelast_last.
Qed.

Lemma length_removelast {A} (l : list A) :
  length (removelast l) = pred (length l).
Proof.
  destruct l as [|y l _] using rev_ind; [done|].
  rewrite removelast_last, length_app. simpl. lia.
Qed.

(** X11: [redo] undoes [undo] and [undo] undoes [redo]: when the stack that
    is popped is not empty, the state after the two steps is the state
    before them with the grid rendered again (collection, both stacks,
    favourites and search cache are the same). *)
Theorem undo_redo_inverse (s : State) :
  (undoStack s ≠ [] → redo (undo s) = loadPrompts s)
  ∧ (redoStack s ≠ [] → undo (redo s) = loadPrompts s).
Proof.
  split; intros Hne.
  - unfold undo. destruct (last (undoStack s)) as [snapshot|] eqn:Hlast;
      [|by apply last_None in Hlast].
    unfold redo. cbn. rewrite last_snoc. cbn.
    rewrite removelast_last, (last_removelast _ _ Hlast).
    by destruct s.
  - unfold redo. destruct (last (redoStack s)) as [snapshot|] eqn:Hlast;
      [|by apply last_None in Hlast].
    unfold undo. cbn. rewrite last_snoc. cbn.
    rewrite removelast_last, (last_removelast _ _ Hlast).
    by destruct s.
Qed.

Lemma undo_redo_inverse_witness :
  redo (undo (savePrompt (str "id1") (str "now") sampleForm emptyState))
  = loadPrompts (savePrompt (str "id1") (str "now") sampleForm emptyState).
Proof.
  apply (undo_redo_inverse
           (savePrompt (str "id1") (str "now") sampleForm emptyState)).
  by vm_compute.
Defined.

Lemma saveState_bound (s : State) :
  length (undoStack s) ≤ 20 →
  length (undoStack (saveState s)) ≤ 20 ∧ redoStack (saveState s) = [].
Proof.
  intros H. unfold saveState. cbn. case_decide as Hlen; cbn; split; try done.
  - rewrite length_drop. rewrite length_app in *. simpl in *. lia.
  - lia.
Qed.

Lemma savePrompt_bound (generateId now : jsstring) (form : PromptForm)
    (s : State) :
  length (undoStack s) + length (redoStack s) ≤ 20 →
  length (undoStack (savePrompt generateId now form s))
  + length (redoStack (savePrompt generateId now form s)) ≤ 20.
Proof.
  intros H. unfold savePrompt. destruct (_ || _); [done|].
  destruct (saveState_bound s ltac:(lia)) as [Hu Hr].
  assert (∀ s', undoStack s' = undoStack (saveState s) →
                redoStack s' = redoStack (saveState s) →
                length (undoStack s') + length (redoStack s') ≤ 20) as Hok.
  { intros s' -> ->. rewrite Hr. simpl. lia. }
  apply Hok; cbn.
  - destruct (editingPromptId (saveState s)) as [[|c e]|]; try done.
    by destruct (findIndex (c :: e) (prompts (saveState s))).
  - destruct (editingPromptId (saveState s)) as [[|c e]|]; try done.
    by destruct (findIndex (c :: e) (prompts (saveState s))).
Qed.

Lemma undo_redo_bound (s : State) :
  length (undoStack (undo s)) + length (redoStack (undo s))
  = length (undoStack s) + length (redoStack s)
  ∧ length (undoStack (redo s)) + length (redoStack (redo s))
    = length (undoStack s) + length (redoStack s).
Proof.
  split.
  - unfold undo. destruct (last (undoStack s)) as [x|] eqn:Hlast; [|done].
    cbn. rewrite length_app, length_removelast.
    destruct (undoStack s); [done|]. simpl. lia.
  - unfold redo. destruct (last (redoStack s)) as [x|] eqn:Hlast; [|done].
    cbn. rewrite length_app, length_removelast.
    destruct (redoStack s); [done|]. simpl. lia.
Qed.

(** X12: the history never holds more than 20 snapshots.  From a state
    whose two stacks hold at most 20 snapshots together, any sequence of
    savings, undos, redos, confirmed deletions, favourite toggles and
    imports leads to a state whose two stacks hold at most 20 snapshots
    together; [redo], which pushes without a limit of its own, cannot
    overflow the undo stack. *)
Theorem history_bound (gen : nat → jsstring) (ops : list (State → State))
    (s : State) :
  Forall (λ op, op = undo ∨ op = redo
                ∨ (∃ generateId now form, op = savePrompt generateId now form)
                ∨ (∃ promptId, op = deletePromptConfirmed promptId)
                ∨ (∃ promptId, op = toggleFavorite promptId)
                ∨ (∃ now imported, op = importConfirmed gen now imported))
         ops →
  length (undoStack s) + length (redoStack s) ≤ 20 →
  let s' := foldl (λ s op, op s) s ops in
  length (undoStack s') + length (redoStack s') ≤ 20
  ∧ length (undoStack s') ≤ 20.
Proof.
  intros Hops Hs s'. cut (length (undoStack s') + length (redoStack s') ≤ 20);
    [lia|]. subst s'.
  revert s Hs. induction Hops as [|op ops Hop _ IH]; intros s Hs; [done|].
  simpl. apply IH.
  destruct Hop as [->|[->|[(g & now & form & ->)|[(promptId & ->)
                  |[(promptId & ->)|(now & imported & ->)]]]]].
  - destruct (undo_redo_bound s) as [-> _]. done.
  - destruct (undo_redo_bound s) as [_ ->]. done.
  - by apply savePrompt_bound.
  - unfold deletePromptConfirmed.
    destruct (findIndex promptId (prompts s)); [|done]. cbn.
    by destruct (indexOf promptId (favorites s)).
  - destruct (toggleFavorite_frame promptId s) as (_ & -> & ->). done.
  - done.
Qed.

Lemma history_bound_witness :
  let s' := foldl (λ s op, op s) emptyState
              [savePrompt (str "id1") (str "now") sampleForm; undo; redo] in
  length (undoStack s') + length (redoStack s') ≤ 20
  ∧ length (undoStack s') ≤ 20.
Proof.
  apply (history_bound (λ _, str "id")).
  - constructor; [right; right; left; by eexists _, _, _|].
    constructor; [by left|].
    constructor; [right; by left|]. constructor.
  - vm_compute. lia.
Defined.

(** ** What [trim] and [split] return *)

Lemma trimStart_suffix (l : jsstring) :
  ∃ pad, l = pad ++ trimStart l ∧ Forall (λ c, isWhiteSpace c = true) pad.
Proof.
  induction l as [|c l (pad & IH & Hpad)]; [by exists []|].
  simpl. destruct (isWhiteSpace c) eqn:Hc.
  - exists (c :: pad). split; [by rewrite IH at 1|by constructor].
  - by exists [].
Qed.

Lemma trimStart_head (l : jsstring) (c : N) (r : jsstring) :
  trimStart l = c :: r → isWhiteSpace c = false.
Proof.
  induction l as [|x l IH]; [done|].
  simpl. destruct (isWhiteSpace x) eqn:Hx; [done|]. by intros [= <- _].
Qed.

Lemma trimStart_idemp (l : jsstring) : trimStart (trimStart l) = trimStart l.
Proof.
  destruct (trimStart l) as [|c r] eqn:Heq; [done|].
  simpl. by rewrite (trimStart_head _ _ _ Heq).
Qed.

Lemma trim_idemp (s : jsstring) : trim (trim s) = trim s.
Proof.
  unfold trim. set (t := trimStart s). set (u := trimStart (reverse t)).
  assert (trimStart (reverse u) = reverse u) as ->.
  { destruct (trimStart_suffix (reverse t)) as (pad & Hpad & _). fold u in Hpad.
    destruct u as [|x u _] using rev_ind; [done|].
    apply (trimStart_reverse_word _ x); [apply last_snoc|].
    assert (head t = Some x) as Hx.
    { rewrite <- (reverse_involutive t), Hpad, (assoc_L (++)), reverse_snoc.
      done. }
    destruct t as [|y t'] eqn:Ht; [done|]. injection Hx as ->.
    by apply (trimStart_head s x t'). }
  rewrite reverse_involutive. subst u. by rewrite trimStart_idemp.
Qed.

Lemma trim_elem_of (s : jsstring) (c : N) : c ∈ trim s → c ∈ s.
Proof.
  unfold trim. rewrite elem_of_reverse. intros Hc.
  destruct (trimStart_suffix (reverse (trimStart s))) as (pad & Hpad & _).
  assert (c ∈ reverse (trimStart s)) as Hc'
    by (rewrite Hpad; set_solver).
  apply elem_of_reverse in Hc'.
  destruct (trimStart_suffix s) as (pad' & Hpad' & _).
  rewrite Hpad'. set_solver.
Qed.

Lemma trim_blank (s : jsstring) :
  Forall (λ c, isWhiteSpace c = true) s → trim s = [].
Proof. intros H. unfold trim. by rewrite (trimStart_blank s). Qed.

Lemma split_elem_of (sep : N) (s w : jsstring) :
  w ∈ split sep s → sep ∉ w.
Proof.
  revert w. induction s as [|c s IH]; intros w; simpl.
  - intros ->%list_elem_of_singleton. set_solver.
  - case_decide as Hc.
    + intros [->|Hw]%elem_of_cons; [set_solver|by apply IH].
    + destruct (split sep s) as [|w' ws]; [intros ->%list_elem_of_singleton|].
      * by intros ->%list_elem_of_singleton.
      * intros [->|Hw]%elem_of_cons.
        -- intros [?|?]%elem_of_cons; [done|].
           by apply (IH w'); [left|].
        -- apply IH. by right.
Qed.

(** ** Saving a prompt *)

(** X13: [savePrompt] rejects a form whose title or text holds white space
    only, or whose category is empty: the state is left as it was, without
    a snapshot and with the redo stack and the search cache kept. *)
Theorem savePrompt_rejects (generateId now : jsstring) (form : PromptForm)
    (s : State) :
  Forall (λ c, isWhiteSpace c = true) (promptTitle form)
  ∨ promptCategory form = []
  ∨ Forall (λ c, isWhiteSpace c = true) (promptText form) →
  savePrompt generateId now form s = s.
Proof.
  intros H. unfold savePrompt.
  destruct H as [H|[H|H]].
  - by rewrite (trim_blank _ H).
  - rewrite H, (bool_decide_eq_true_2 ([] = [])) by done.
    by rewrite orb_true_r.
  - rewrite (trim_blank _ H), (bool_decide_eq_true_2 ([] = [])) by done.
    by rewrite orb_true_r.
Qed.

Lemma savePrompt_rejects_witness :
  savePrompt (str "id1") (str "now")
    (mkForm (str "  ") (str "art") [] (str "A text") [] None [] None)
    sampleState = sampleState.
Proof.
  apply savePrompt_rejects. left. by repeat constructor.
Defined.

(** X14: in creation mode, a form that passes the validation adds exactly
    one record, in front of the others.  Its title and text are not empty;
    title, text, notes and tags are trimmed (trimming them again changes
    nothing); no tag is empty or holds a comma; both dates are the current
    date and a missing rating is stored as 0. *)
Theorem savePrompt_creates (generateId now : jsstring) (form : PromptForm)
    (s : State) :
  trim (promptTitle form) ≠ [] → promptCategory form ≠ [] →
  trim (promptText form) ≠ [] → editingPromptId s = None →
  ∃ p, prompts (savePrompt generateId now form s) = p :: prompts s
       ∧ p_id p = generateId
       ∧ p_title p ≠ [] ∧ p_text p ≠ []
       ∧ p_category p = promptCategory form
       ∧ trim (p_title p) = p_title p ∧ trim (p_text p) = p_text p
       ∧ trim (p_notes p) = p_notes p
       ∧ (∀ tag, tag ∈ p_tags p →
            tag ≠ [] ∧ (44 ∉ tag)%N ∧ trim tag = tag)
       ∧ p_createdAt p = now ∧ p_updatedAt p = now
       ∧ p_rating p = Some (default 0%Z (promptRating form)).
Proof.
  intros Ht Hc Hx He.
  destruct (savePrompt_valid generateId now form s Ht Hc Hx)
    as (_ & _ & _ & Hp).
  eexists. split; [by apply Hp|]. cbn.
  split_and!; try done; try apply trim_idemp.
  intros tag (Hne & (piece & -> & Hpiece)%list_elem_of_fmap)%list_elem_of_filter.
  split_and!; [done| |apply trim_idemp].
  intros Hcomma%trim_elem_of. by apply (split_elem_of _ _ _ Hpiece).
Qed.

Lemma savePrompt_creates_witness :
  ∃ p, prompts (savePrompt (str "id1") (str "now") sampleForm emptyState)
       = p :: prompts emptyState
       ∧ p_id p = str "id1"
       ∧ p_title p ≠ [] ∧ p_text p ≠ []
       ∧ p_category p = promptCategory sampleForm
       ∧ trim (p_title p) = p_title p ∧ trim (p_text p) = p_text p
       ∧ trim (p_notes p) = p_notes p
       ∧ (∀ tag, tag ∈ p_tags p →
            tag ≠ [] ∧ (44 ∉ tag)%N ∧ trim tag = tag)
       ∧ p_createdAt p = str "now" ∧ p_updatedAt p = str "now"
       ∧ p_rating p = Some (default 0%Z (promptRating sampleForm)).
Proof.
  apply savePrompt_creates; by vm_compute.
Defined.

Lemma findIndex_Some (promptId : jsstring) (l : list Prompt) (index : nat) :
  findIndex promptId l = Some index →
  ∃ p, l !! index = Some p ∧ p_id p = promptId.
Proof.
  unfold findIndex.
  destruct (list_find _ l) as [[i p]|] eqn:Hfind; [|done].
  intros [= <-]. apply list_find_Some in Hfind as (Hp & Hid & _).
  by exists p.
Qed.

Lemma findIndex_elem_of (promptId : jsstring) (l : list Prompt) :
  promptId ∈ p_id <$> l → is_Some (findIndex promptId l).
Proof.
  intros (p & -> & Hp)%list_elem_of_fmap. unfold findIndex.
  destruct (list_find_elem_of (λ q, p_id q = p_id p) l p Hp eq_refl)
    as [[i q] ->].
  by eexists.
Qed.

Lemma filter_other_keys {A} (f : A → jsstring) (a : jsstring) (l : list A) :
  a ∉ f <$> l → filter (λ x, f x ≠ a) l = l.
Proof.
  induction l as [|y l IH]; [done|].
  rewrite fmap_cons. intros [Hy Hl]%not_elem_of_cons.
  rewrite filter_cons_True by congruence. f_equal. by apply IH.
Qed.

(** Where the keys are distinct, removing the first element with a key
    removes every element with that key. *)
Lemma delete_first_filter {A} (f : A → jsstring) (a : jsstring) (l : list A)
    (i : nat) :
  NoDup (f <$> l) →
  fst <$> list_find (λ x, f x = a) l = Some i →
  delete i l = filter (λ x, f x ≠ a) l.
Proof.
  revert i. induction l as [|x l IH]; intros i Hnd; [done|].
  rewrite fmap_cons in Hnd. apply NoDup_cons in Hnd as [Hx Hnd].
  cbn [list_find]. case_decide as Hfx.
  - intros [= <-]. cbn [delete list_delete].
    rewrite filter_cons_False by tauto.
    rewrite filter_other_keys; [done|by rewrite <- Hfx].
  - destruct (list_find _ l) as [[j y]|] eqn:Hfind; [|done].
    intros [= <-]. cbn [delete list_delete].
    rewrite filter_cons_True by done. f_equal.
    by apply IH.
Qed.

(** X15: in edit mode, a form that passes the validation rewrites the
    record with the edited id in place: the collection keeps its length,
    its ids and its creation dates in the same order, every other record is
    unchanged, and the record gets the trimmed values of the form with the
    current date as its update date. *)
Theorem savePrompt_updates (generateId now : jsstring) (form : PromptForm)
    (s : State) (promptId : jsstring) (index : nat) :
  trim (promptTitle form) ≠ [] → promptCategory form ≠ [] →
  trim (promptText form) ≠ [] →
  promptId ≠ [] → editingPromptId s = Some promptId →
  findIndex promptId (prompts s) = Some index →
  let prompts' := prompts (savePrompt generateId now form s) in
  p_id <$> prompts' = p_id <$> prompts s
  ∧ p_createdAt <$> prompts' = p_createdAt <$> prompts s
  ∧ (∀ j, j ≠ index → prompts' !! j = prompts s !! j)
  ∧ ∃ p, prompts' !! index = Some p
         ∧ p_id p = promptId ∧ p_title p = trim (promptTitle form)
         ∧ p_category p = promptCategory form
         ∧ p_text p = trim (promptText form) ∧ p_updatedAt p = now.
Proof.
  intros Ht Hc Hx Hne He Hfind prompts'. subst prompts'.
  unfold savePrompt. rewrite !bool_decide_eq_false_2 by done. cbn [orb].
  destruct (last_saveState s) as (_ & _ & Hp & He').
  rewrite He', He. destruct promptId as [|c e]; [done|].
  rewrite Hp, Hfind. cbn.
  destruct (findIndex_Some _ _ _ Hfind) as (p & Hlook & Hid).
  split_and!.
  - rewrite (list_fmap_alter p_id _ id) by by apply Forall_true.
    by apply list_alter_id.
  - rewrite (list_fmap_alter p_createdAt _ id) by by apply Forall_true.
    by apply list_alter_id.
  - intros j Hj. by apply list_lookup_alter_ne.
  - rewrite list_lookup_alter_eq, Hlook. by eexists.
Qed.

Lemma savePrompt_updates_witness :
  let form := mkForm (str " New title ") (str "code") [] (str "New text") []
                None [] None in
  let s := set_editingPromptId (Some (p_id samplePrompt2)) sampleState in
  let prompts' := prompts (savePrompt (str "id1") (str "now") form s) in
  p_id <$> prompts' = p_id <$> prompts s
  ∧ p_createdAt <$> prompts' = p_createdAt <$> prompts s
  ∧ (∀ j, j ≠ 1 → prompts' !! j = prompts s !! j)
  ∧ ∃ p, prompts' !! 1 = Some p
         ∧ p_id p = p_id samplePrompt2 ∧ p_title p = trim (promptTitle form)
         ∧ p_category p = promptCategory form
         ∧ p_text p = trim (promptText form) ∧ p_updatedAt p = str "now".
Proof.
  intros form s.
  apply (savePrompt_updates (str "id1") (str "now") form s
           (p_id samplePrompt2) 1); by vm_compute.
Defined.

(** X16: where the ids of the collection are distinct and the favourites
    hold no id twice, the confirmed deletion of an id of the collection
    removes the record with that id, and only it, from the collection and
    the id from the favourites; the other records and favourites keep
    their order, and neither stack changes. *)
Theorem deletePromptConfirmed_unique (promptId : jsstring) (s : State) :
  NoDup (p_id <$> prompts s) → NoDup (favorites s) →
  promptId ∈ p_id <$> prompts s →
  let s' := deletePromptConfirmed promptId s in
  prompts s' = filter (λ p, p_id p ≠ promptId) (prompts s)
  ∧ favorites s' = filter (λ x, x ≠ promptId) (favorites s)
  ∧ (promptId ∉ p_id <$> prompts s') ∧ (promptId ∉ favorites s')
  ∧ length (prompts s) = S (length (prompts s'))
  ∧ undoStack s' = undoStack s ∧ redoStack s' = redoStack s.
Proof.
  intros Hnd Hfav Hin s'.
  destruct (findIndex_elem_of _ _ Hin) as [index Hfind].
  assert (prompts s' = delete index (prompts s)
          ∧ favorites s' = match indexOf promptId (favorites s) with
                           | Some favIndex => delete favIndex (favorites s)
                           | None => favorites s
                           end
          ∧ undoStack s' = undoStack s ∧ redoStack s' = redoStack s)
    as (Hp & Hf & Hu & Hr).
  { subst s'. unfold deletePromptConfirmed. rewrite Hfind. cbn.
    by destruct (indexOf promptId (favorites s)). }
  assert (prompts s' = filter (λ p, p_id p ≠ promptId) (prompts s)) as Hp'.
  { rewrite Hp. by apply delete_first_filter. }
  assert (favorites s' = filter (λ x, x ≠ promptId) (favorites s)) as Hf'.
  { rewrite Hf. destruct (indexOf promptId (favorites s)) as [i|] eqn:Hi.
    - apply (delete_first_filter id promptId); [by rewrite list_fmap_id|done].
    - unfold indexOf in Hi. apply fmap_None, list_find_None in Hi.
      rewrite (filter_other_keys id promptId); [done|].
      rewrite list_fmap_id. intros Hin'.
      by apply (proj1 (Forall_forall _ _) Hi promptId). }
  split_and!; try done.
  - rewrite Hp'. intros (p & Hid & Hpin%list_elem_of_filter)%list_elem_of_fmap.
    by destruct Hpin.
  - rewrite Hf'. by intros [? _]%list_elem_of_filter.
  - rewrite Hp. destruct (findIndex_Some _ _ _ Hfind) as (p & Hlook & _).
    rewrite length_delete by eauto. apply lookup_lt_Some in Hlook. lia.
Qed.

Lemma deletePromptConfirmed_unique_witness :
  let s' := deletePromptConfirmed (p_id samplePrompt1) sampleState in
  prompts s' = filter (λ p, p_id p ≠ p_id samplePrompt1) (prompts sampleState)
  ∧ favorites s' = filter (λ x, x ≠ p_id samplePrompt1) (favorites sampleState)
  ∧ (p_id samplePrompt1 ∉ p_id <$> prompts s')
  ∧ (p_id samplePrompt1 ∉ favorites s')
  ∧ length (prompts sampleState) = S (length (prompts s'))
  ∧ undoStack s' = undoStack sampleState
  ∧ redoStack s' = redoStack sampleState.
Proof.
  apply (deletePromptConfirmed_unique (p_id samplePrompt1) sampleState).
  - by apply (bool_decide_unpack _).
  - by apply (bool_decide_unpack _).
  - by apply (bool_decide_unpack _).
Defined.

(** ** Import *)

Lemma orDefault_nonempty (v d : jsstring) :
  d ≠ [] → orDefault v d ≠ [] ∧ (v ≠ [] → orDefault v d = v).
Proof. by destruct v. Qed.

(** X17: the confirmed import replaces the collection by one record per
    imported record, in the same order.  Every record comes out with an id,
    a title, a category and both dates (the imported value where there is
    one, the default otherwise), with the imported tags, text, notes and
    result images, and without a rating.  The favourites and both stacks are
    left as they were: an import takes no snapshot. *)
Theorem importConfirmed_spec (generateId : nat → jsstring) (now : jsstring)
    (importedPrompts : list Prompt) (s : State) :
  (∀ k, generateId k ≠ []) → now ≠ [] →
  let s' := importConfirmed generateId now importedPrompts s in
  length (prompts s') = length importedPrompts
  ∧ (∀ k q, importedPrompts !! k = Some q →
       ∃ p, prompts s' !! k = Some p
            ∧ p_id p ≠ [] ∧ (p_id q ≠ [] → p_id p = p_id q)
            ∧ p_title p ≠ [] ∧ (p_title q ≠ [] → p_title p = p_title q)
            ∧ p_category p ≠ []
            ∧ (p_category q ≠ [] → p_category p = p_category q)
            ∧ p_createdAt p ≠ [] ∧ p_updatedAt p ≠ []
            ∧ p_tags p = p_tags q ∧ p_text p = p_text q
            ∧ p_notes p = p_notes q
            ∧ p_resultImages p = p_resultImages q
            ∧ p_rating p = None)
  ∧ favorites s' = favorites s
  ∧ undoStack s' = undoStack s ∧ redoStack s' = redoStack s.
Proof.
  intros Hgen Hnow s'. subst s'. unfold importConfirmed. cbn.
  split_and!; try done.
  - apply length_imap.
  - intros k q Hk. eexists. rewrite list_lookup_imap, Hk. split; [done|].
    cbn.
    split_and!; try done;
      by apply orDefault_nonempty; auto.
Qed.

Lemma importConfirmed_spec_witness :
  let s' := importConfirmed (λ _, str "id") (str "now")
              [samplePrompt1; starredPrompt] emptyState in
  length (prompts s') = 2
  ∧ (∀ k q, [samplePrompt1; starredPrompt] !! k = Some q →
       ∃ p, prompts s' !! k = Some p
            ∧ p_id p ≠ [] ∧ (p_id q ≠ [] → p_id p = p_id q)
            ∧ p_title p ≠ [] ∧ (p_title q ≠ [] → p_title p = p_title q)
            ∧ p_category p ≠ []
            ∧ (p_category q ≠ [] → p_category p = p_category q)
            ∧ p_createdAt p ≠ [] ∧ p_updatedAt p ≠ []
            ∧ p_tags p = p_tags q ∧ p_text p = p_text q
            ∧ p_notes p = p_notes q
            ∧ p_resultImages p = p_resultImages q
            ∧ p_rating p = None)
  ∧ favorites s' = favorites emptyState
  ∧ undoStack s' = undoStack emptyState
  ∧ redoStack s' = redoStack emptyState.
Proof.
  apply (importConfirmed_spec (λ _, str "id") (str "now")
           [samplePrompt1; starredPrompt] emptyState); by vm_compute.
Defined.

(** ** Share link: what is encoded *)














(** ** Search suggestions *)






(** ** Moving through the suggestions *)

Lemma navigateSuggestions_down (panel : Suggestions) (i : nat) :
  sg_highlighted panel = Some i → i < length (sg_items panel) →
  navigateSuggestions 1 panel
  = mkSuggestions (sg_items panel) (sg_active panel)
      (Some (S i `mod` length (sg_items panel))).
Proof.
  intros Hi Hlt. unfold navigateSuggestions. rewrite Hi.
  rewrite decide_False by lia. f_equal.
  destruct (decide (S i = length (sg_items panel))) as [Heq|Hne].
  - rewrite Heq, Nat.Div0.mod_same.
    rewrite (decide_True (P := (_ ≤ _ + 1)%Z)) by lia.
    rewrite (decide_False (P := (0 < 0)%Z)) by lia.
    by rewrite decide_True by lia.
  - rewrite Nat.mod_small by lia.
    rewrite (decide_False (P := (_ ≤ _ + 1)%Z)) by lia.
    rewrite (decide_False (P := (_ + 1 < 0)%Z)) by lia.
    rewrite decide_True by lia. f_equal. lia.
Qed.

Lemma navigateSuggestions_up (panel : Suggestions) (i : nat) :
  sg_highlighted panel = Some i → i < length (sg_items panel) →
  navigateSuggestions (-1) panel
  = mkSuggestions (sg_items panel) (sg_active panel)
      (Some (if decide (i = 0) then length (sg_items panel) - 1 else i - 1)).
Proof.
  intros Hi Hlt. unfold navigateSuggestions. rewrite Hi.
  rewrite decide_False by lia. f_equal.
  rewrite (decide_False (P := (_ ≤ _ + -1)%Z)) by lia.
  destruct (decide (i = 0)) as [->|H0].
  - rewrite (decide_True (P := (_ + -1 < 0)%Z)) by lia.
    rewrite decide_True by lia. f_equal. lia.
  - rewrite (decide_False (P := (_ + -1 < 0)%Z)) by lia.
    rewrite decide_True by lia. f_equal. lia.
Qed.

(** X20: on a panel with a highlighted item, [navigateSuggestions] keeps
    the items and highlights an item of the list again, going round at both
    ends.  Going down and then up, or up and then down, comes back to the
    same panel, and going down as many times as there are items too. *)
Theorem navigateSuggestions_cycle (panel : Suggestions) (i : nat) :
  sg_highlighted panel = Some i → i < length (sg_items panel) →
  (∀ direction, direction = 1%Z ∨ direction = (-1)%Z →
     ∃ k, sg_highlighted (navigateSuggestions direction panel) = Some k
          ∧ k < length (sg_items panel)
          ∧ sg_items (navigateSuggestions direction panel) = sg_items panel)
  ∧ navigateSuggestions (-1) (navigateSuggestions 1 panel) = panel
  ∧ navigateSuggestions 1 (navigateSuggestions (-1) panel) = panel
  ∧ Nat.iter (length (sg_items panel)) (navigateSuggestions 1) panel = panel.
Proof.
  intros Hi Hlt.
  pose proof (Nat.mod_upper_bound (S i) (length (sg_items panel))
                ltac:(lia)) as Hmod.
  split_and!.
  - intros direction [->| ->].
    + rewrite (navigateSuggestions_down _ i) by done. by eexists.
    + rewrite (navigateSuggestions_up _ i) by done. eexists.
      split_and!; [done| |done]. case_decide; lia.
  - rewrite (navigateSuggestions_down _ i) by done.
    erewrite navigateSuggestions_up; [|done..]. cbn.
    destruct panel as [items active highlighted]. cbn in *. subst. f_equal.
    f_equal. destruct (decide (S i = length items)) as [Heq|Hne].
    + rewrite Heq, Nat.Div0.mod_same. rewrite decide_True by done. lia.
    + rewrite Nat.mod_small by lia. rewrite decide_False by done. lia.
  - rewrite (navigateSuggestions_up _ i) by done.
    erewrite navigateSuggestions_down; [|done|cbn; case_decide; lia]. cbn.
    destruct panel as [items active highlighted]. cbn in *. subst. f_equal.
    f_equal. destruct (decide (i = 0)) as [->|H0].
    + replace (S (length items - 1)) with (length items) by lia.
      apply Nat.Div0.mod_same.
    + replace (S (i - 1)) with i by lia. by apply Nat.mod_small.
  - assert (∀ k, Nat.iter k (navigateSuggestions 1) panel
                 = mkSuggestions (sg_items panel) (sg_active panel)
                     (Some ((i + k) `mod` length (sg_items panel)))) as Hiter.
    { induction k as [|k IH].
      - simpl. rewrite Nat.add_0_r, Nat.mod_small by done.
        destruct panel; cbn in *; by subst.
      - rewrite Nat.iter_succ, IH.
        erewrite navigateSuggestions_down;
          [|done|cbn; apply Nat.mod_upper_bound; lia]. cbn. f_equal. f_equal.
        rewrite <- Nat.add_1_l, Nat.Div0.add_mod_idemp_r. f_equal. lia. }
    rewrite Hiter.
    rewrite <- (Nat.mul_1_l (length (sg_items panel))) at 1.
    rewrite Nat.Div0.mod_add, Nat.mod_small by done.
    destruct panel; cbn in *; by subst.
Qed.

Lemma navigateSuggestions_cycle_witness :
  let panel := mkSuggestions [str "a"; str "b"; str "c"] true (Some 2) in
  (∀ direction, direction = 1%Z ∨ direction = (-1)%Z →
     ∃ k, sg_highlighted (navigateSuggestions direction panel) = Some k
          ∧ k < length (sg_items panel)
          ∧ sg_items (navigateSuggestions direction panel) = sg_items panel)
  ∧ navigateSuggestions (-1) (navigateSuggestions 1 panel) = panel
  ∧ navigateSuggestions 1 (navigateSuggestions (-1) panel) = panel
  ∧ Nat.iter (length (sg_items panel)) (navigateSuggestions 1) panel = panel.
Proof.
  intros panel. apply (navigateSuggestions_cycle panel 2); [done|].
  simpl. lia.
Defined.

(** ** The tag field *)







(** ** Adding categories *)




Lemma existsb_categoryKeys (key : jsstring) (forest : list Li) :
  existsb (λ li, bool_decide (li_category li = key)) (allLis forest)
  = bool_decide (key ∈ categoryKeys forest).
Proof.
  unfold categoryKeys. induction (allLis forest) as [|x l IH]; [done|].
  cbn [existsb fmap list_fmap]. rewrite IH.
  destruct (decide (li_category x = key)) as [Heq|Hne].
  - rewrite (bool_decide_eq_true_2 _ Heq). symmetry.
    apply bool_decide_eq_true_2. rewrite <- Heq. by left.
  - rewrite (bool_decide_eq_false_2 _ Hne). cbn [orb].
    apply bool_decide_ext. rewrite elem_of_cons.
    split; [by right|]. by intros [?|?].
Qed.





Lemma addCategoryClick_rejects (value : jsstring) (s : State) :
  trim value = []
  ∨ toLowerCase (trim value) ∈ categoryKeys (categoryList s) →
  addCategoryClick value s = inl s.
Proof.
  intros H. unfold addCategoryClick.
  case_bool_decide as Hv; [done|]. destruct H as [?|Hin]; [done|].
  by rewrite existsb_categoryKeys, bool_decide_eq_true_2.
Qed.







(** ** Batch processing *)

Lemma forEachFrom_app {A St} (operation : A → nat → St → St)
    (l1 l2 : list A) :
  ∀ i st, forEachFrom operation i (l1 ++ l2) st
          = forEachFrom operation (i + length l1) l2
              (forEachFrom operation i l1 st).
Proof.
  induction l1 as [|x l1 IH]; intros i st; simpl.
  - by rewrite Nat.add_0_r.
  - rewrite IH. f_equal. lia.
Qed.

Lemma forEachFrom_mod {A St} (operation : A → nat → St → St)
    (batchSize : nat) (l : list A) :
  ∀ k j st, k `mod` batchSize = 0 → j + length l ≤ batchSize →
    forEachFrom (λ x i, operation x (i `mod` batchSize)) (k + j) l st
    = forEachFrom operation j l st.
Proof.
  induction l as [|x l IH]; intros k j st Hk Hlen; [done|].
  simpl in *. replace (S (k + j)) with (k + S j) by lia.
  rewrite IH by (done || lia). do 2 f_equal.
  rewrite <- Nat.Div0.add_mod_idemp_l, Hk. simpl. apply Nat.mod_small. lia.
Qed.

Lemma processBatch_sweep {A St} (operation : A → nat → St → St)
    (items : list A) (batchSize : nat) :
  0 < batchSize →
  ∀ n index st fuel,
    length items - index ≤ n * batchSize → n < fuel →
    index `mod` batchSize = 0 →
    processBatch operation fuel items batchSize index st
    = Some (forEachFrom (λ x i, operation x (i `mod` batchSize)) index
              (drop index items) st).
Proof.
  intros Hpos. induction n as [|n IH]; intros index st fuel Hlen Hfuel Hmod;
    (destruct fuel as [|fuel]; [lia|]); cbn [processBatch].
  - rewrite decide_False by lia. rewrite drop_ge by lia.
    by rewrite take_nil.
  - case_decide as Hnext.
    + rewrite (IH (index + batchSize)); [|lia|lia|].
      * f_equal. rewrite <- (take_drop batchSize (drop index items)) at 2.
        rewrite forEachFrom_app, drop_drop.
        rewrite length_take, length_drop.
        replace (batchSize `min` (length items - index)) with batchSize by lia.
        f_equal.
        rewrite <- (Nat.add_0_r index) at 2. symmetry.
        apply forEachFrom_mod; [done|].
        rewrite length_take. lia.
      * rewrite <- Nat.Div0.add_mod_idemp_l, Hmod. simpl.
        apply Nat.Div0.mod_same.
    + f_equal. rewrite take_ge by (rewrite length_drop; lia).
      rewrite <- (Nat.add_0_r index) at 2. symmetry.
      apply forEachFrom_mod; [done|]. rewrite length_drop. lia.
Qed.

(** X24: [batchOperation] with a positive batch size resolves, within one
    call of [processBatch] more than there are items, and has then applied
    the operation to every item once, in the order of the items, each with
    its index in its batch (its index modulo the batch size).  With the
    batch size 0 and at least one item it never resolves: every call of
    [processBatch] schedules the next one. *)
Theorem batchOperation_spec {A St} (operation : A → nat → St → St)
    (items : list A) (batchSize : nat) (st : St) :
  (0 < batchSize →
   ∀ fuel, length items < fuel →
     batchOperation operation fuel items batchSize st
     = Some (forEachFrom (λ x i, operation x (i `mod` batchSize)) 0 items st))
  ∧ (batchSize = 0 → items ≠ [] →
     ∀ fuel, batchOperation operation fuel items batchSize st = None).
Proof.
  split.
  - intros Hpos fuel Hfuel. unfold batchOperation.
    rewrite (processBatch_sweep operation items batchSize Hpos (length items));
      [done|nia|done|]. by apply Nat.Div0.mod_0_l.
  - intros -> Hne fuel. unfold batchOperation.
    induction fuel as [|fuel IH]; [done|]. cbn [processBatch].
    rewrite decide_True by (destruct items; simpl; [done|lia]).
    by rewrite take_0.
Qed.

Lemma batchOperation_spec_witness :
  batchOperation (λ (x i : nat) (st : list (nat * nat)), st ++ [(i, x)]) 6
    [10; 20; 30; 40; 50] 2 []
  = Some [(0, 10); (1, 20); (0, 30); (1, 40); (0, 50)].
Proof.
  apply (batchOperation_spec
           (λ (x i : nat) (st : list (nat * nat)), st ++ [(i, x)])
           [10; 20; 30; 40; 50] 2 []).
  - lia.
  - simpl. lia.
Defined.

(** ** Reading a share link *)





















(** ** Empty state and statistics *)



Lemma Set_add_length (x : jsstring) (suggestions : list jsstring) :
  length suggestions ≤ length (Set_add x suggestions) ≤ S (length suggestions)
  ∧ 1 ≤ length (Set_add x suggestions).
Proof.
  unfold Set_add. case_decide as Hx.
  - split; [lia|]. destruct suggestions; [by apply elem_of_nil in Hx|].
    simpl. lia.
  - rewrite length_app. simpl. lia.
Qed.

Lemma Math_round_ge_1 (q : Q) : (1 <= q)%Q → (1 ≤ Math_round q)%Z.
Proof.
  intros Hq. unfold Math_round.
  assert (Qfloor 1 ≤ Qfloor (q + (1 # 2)))%Z as Hfloor
    by (apply Qfloor_resp_le; lra).
  exact Hfloor.
Qed.

(** X28: the numbers of [updateStatistics] and the average of
    [updateDetailedStatistics]: the number of categories in use and the
    number of prompts with images never exceed the number of prompts; a
    collection that is not empty has at least one category in use and an
    average word count of at least 1, whatever its texts. *)
Theorem updateStatistics_bounds (s : State) :
  let stats := updateStatistics s in
  totalPrompts stats = length (prompts s)
  ∧ totalCategories stats ≤ totalPrompts stats
  ∧ promptsWithImages stats ≤ totalPrompts stats
  ∧ (prompts s ≠ [] → 1 ≤ totalCategories stats ∧ (1 ≤ statAvgWords s)%Z)
  ∧ (prompts s = [] → totalCategories stats = 0 ∧ statAvgWords s = 0%Z).
Proof.
  intros stats. subst stats. unfold updateStatistics, statAvgWords.
  cbn [totalPrompts totalCategories promptsWithImages].
  assert (∀ l acc,
            length acc
            ≤ length (foldl (λ categories prompt,
                               Set_add (p_category prompt) categories) acc l)
            ≤ length acc + length l
            ∧ (l ≠ [] →
               1 ≤ length (foldl (λ categories prompt,
                                    Set_add (p_category prompt) categories)
                                 acc l))) as Hcat.
  { induction l as [|p l IH]; intros acc; [simpl; split; [lia|done]|].
    cbn [foldl]. destruct (IH (Set_add (p_category p) acc)) as [Hb _].
    pose proof (Set_add_length (p_category p) acc). simpl. split; [lia|].
    intros _. lia. }
  assert (∀ l acc,
            acc + length l
            ≤ foldl (λ totalWords prompt,
                       totalWords + calculateWordCount (p_text prompt))
                    acc l) as Hwords.
  { induction l as [|p l IH]; intros acc; [simpl; lia|].
    cbn [foldl]. specialize (IH (acc + calculateWordCount (p_text p))).
    pose proof (calculateWordCount_positive (p_text p)). simpl. lia. }
  destruct (Hcat (prompts s) []) as [Hbound Hone].
  split_and!; [done|simpl in Hbound; lia|apply length_filter| |].
  - intros Hne. split; [by apply Hone|].
    rewrite decide_True by (destruct (prompts s); simpl; [done|lia]).
    apply Math_round_ge_1. specialize (Hwords (prompts s) 0).
    unfold Qle. cbn [Qnum Qden]. rewrite Zpos_of_nat
      by (destruct (prompts s); [done|simpl; lia]). lia.
  - by intros ->.
Qed.

(** ** Near copies *)

Lemma lev_app (p xs ys : jsstring) : lev (p ++ xs) (p ++ ys) = lev xs ys.
Proof.
  induction p as [|c p IH]; [done|].
  cbn [app]. rewrite lev_cons_cons. by rewrite decide_False by (by intros []).
Qed.

(** Between two strings of the same length, the distance is at most the
    number of places where they differ. *)
Lemma lev_differences (xs : jsstring) :
  ∀ ys, length xs = length ys →
        lev xs ys ≤ length (filter (λ p : N * N, p.1 ≠ p.2) (zip xs ys)).
Proof.
  induction xs as [|x xs IH]; intros [|y ys] Hlen; try done.
  injection Hlen as Hlen. specialize (IH ys Hlen).
  rewrite lev_cons_cons. cbn [zip zip_with].
  destruct (decide ([x] ≠ [y])) as [Hne|Heq].
  - rewrite filter_cons_True by (cbn; congruence). simpl. lia.
  - apply dec_stable in Heq. injection Heq as ->.
    by rewrite filter_cons_False by (cbn; tauto).
Qed.

Lemma zip_reverse {A B} (l : list A) :
  ∀ k : list B, length l = length k →
                zip (reverse l) (reverse k) = reverse (zip l k).
Proof.
  induction l as [|x l IH]; intros [|y k] Hlen; try done.
  injection Hlen as Hlen. cbn [zip zip_with]. rewrite !reverse_cons.
  rewrite zip_with_app by by rewrite !length_reverse.
  by rewrite IH.
Qed.

(** X29: two records at positions i < j whose texts have the same length
    and differ in fewer than three places out of ten are reported by
    [findDuplicatePrompts], with a similarity of at least 70. *)
Theorem findDuplicatePrompts_few_changes (prompts : list Prompt) (i j : nat)
    (pi pj : Prompt) :
  i < j → prompts !! i = Some pi → prompts !! j = Some pj →
  length (p_text pi) = length (p_text pj) →
  10 * length (filter (λ p : N * N, p.1 ≠ p.2)
                      (zip (p_text pi) (p_text pj)))
  < 3 * length (p_text pi) →
  ∃ d, d ∈ findDuplicatePrompts prompts
       ∧ prompt1 d = pi ∧ prompt2 d = pj ∧ (70 ≤ similarity d ≤ 100)%Z.
Proof.
  intros Hij Hi Hj Hlen Hfew.
  set (n := length (p_text pi)) in *.
  set (k := length (filter _ (zip (p_text pi) (p_text pj)))) in *.
  assert (lev (reverse (p_text pj)) (reverse (p_text pi)) ≤ k) as Hd.
  { rewrite lev_sym. subst k.
    rewrite <- length_reverse, <- filter_reverse, <- zip_reverse by done.
    apply lev_differences. by rewrite !length_reverse. }
  set (d := lev (reverse (p_text pj)) (reverse (p_text pi))) in *.
  assert (calculateSimilarity (p_text pi) (p_text pj)
          = Some ((Z.of_nat n - Z.of_nat d) # Pos.of_nat n)%Q) as Hsim.
  { unfold calculateSimilarity. fold n.
    destruct (decide (length (p_text pj) < n)) as [|_]; [lia|].
    rewrite <- Hlen.
    destruct (decide (n = 0)) as [|_]; [lia|].
    by rewrite getEditDistance_lev. }
  assert (7 # 10 < (Z.of_nat n - Z.of_nat d) # Pos.of_nat n)%Q as Hlow.
  { unfold Qlt. cbn [Qnum Qden]. rewrite Zpos_of_nat by lia. lia. }
  assert ((Z.of_nat n - Z.of_nat d) # Pos.of_nat n <= 1)%Q as Hup.
  { unfold Qle. cbn [Qnum Qden]. rewrite Zpos_of_nat by lia. lia. }
  exists (mkDuplicate pi pj
            (Math_round (((Z.of_nat n - Z.of_nat d) # Pos.of_nat n) * 100))).
  split; [|split; [done|split; [done|by apply Math_round_percent]]].
  apply findDuplicatePrompts_elem. exists i, j.
  split; [split; [done|by eapply lookup_lt_Some]|].
  apply duplicateOf_spec.
  by exists pi, pj, ((Z.of_nat n - Z.of_nat d) # Pos.of_nat n)%Q.
Qed.

Lemma findDuplicatePrompts_few_changes_witness :
  ∃ d, d ∈ findDuplicatePrompts
             [textPrompt "t1" "a castle in the sky";
              textPrompt "t2" "a castle on the sky"]
       ∧ prompt1 d = textPrompt "t1" "a castle in the sky"
       ∧ prompt2 d = textPrompt "t2" "a castle on the sky"
       ∧ (70 ≤ similarity d ≤ 100)%Z.
Proof.
  apply (findDuplicatePrompts_few_changes _ 0 1).
  - lia.
  - done.
  - done.
  - done.
  - vm_compute. lia.
Defined.

(** ** Refused renames *)


